(** * Bionic: [pthread_setname_np] and the [ioprio] macros

    A shallow embedding of

    - [libc/kernel/common/linux/ioprio.h]: the macros that pack an I/O
      priority class and its data into one integer;
    - [libc/bionic/pthread_setname_np.cpp]: the function that gives a
      thread its kernel comm name.

    The function talks to the kernel, and its write loop runs for as long
    as the kernel keeps interrupting it, so it is embedded as an
    interaction tree: every system call is an event whose answer the
    kernel chooses.  A run of the function is a finite list of calls with
    their answers together with the value returned. *)

From Stdlib Require Import ZArith String Ascii List Lia Bool Eqdep.
From ITree Require Import ITree Eq.Shallow.
Import ListNotations.

Local Open Scope string_scope.
Local Open Scope Z_scope.

Set Implicit Arguments.

(* ===================================================================== *)
(** * linux/ioprio.h *)
(* ===================================================================== *)

Module Ioprio.

(** C integer types met by the macros.  An [int] is 32 bits wide in
    two's complement; [unsigned long] is as wide as the target makes
    it (32 bits on the 32-bit ABIs, 64 on the others). *)
Definition to_int (z : Z) : Z := (z + 2 ^ 31) mod 2 ^ 32 - 2 ^ 31.
Definition to_ulong (ulong_bits : Z) (z : Z) : Z := z mod 2 ^ ulong_bits.

Definition IOPRIO_BITS : Z := 16.
Definition IOPRIO_CLASS_SHIFT : Z := 13.

(** [#define IOPRIO_PRIO_MASK ((1UL << IOPRIO_CLASS_SHIFT) - 1)] *)
Definition IOPRIO_PRIO_MASK (ulong_bits : Z) : Z :=
  to_ulong ulong_bits (to_ulong ulong_bits (Z.shiftl 1 IOPRIO_CLASS_SHIFT) - 1).

(** [#define IOPRIO_PRIO_CLASS(mask) ((mask) >> IOPRIO_CLASS_SHIFT)],
    on an [int]. *)
Definition IOPRIO_PRIO_CLASS (mask : Z) : Z :=
  Z.shiftr mask IOPRIO_CLASS_SHIFT.

(** [#define IOPRIO_PRIO_DATA(mask) ((mask) & IOPRIO_PRIO_MASK)]: the
    [int] is converted to [unsigned long] before the conjunction. *)
Definition IOPRIO_PRIO_DATA (ulong_bits : Z) (mask : Z) : Z :=
  Z.land (to_ulong ulong_bits mask) (IOPRIO_PRIO_MASK ulong_bits).

(** [#define IOPRIO_PRIO_VALUE(class, data)
     (((class) << IOPRIO_CLASS_SHIFT) | data)], on [int]s. *)
Definition IOPRIO_PRIO_VALUE (class data : Z) : Z :=
  to_int (Z.lor (to_int (Z.shiftl class IOPRIO_CLASS_SHIFT)) data).

(** The first anonymous [enum]. *)
Variant ioprio_class : Type :=
| CLASS_NONE
| CLASS_RT
| CLASS_BE
| CLASS_IDLE.

Definition class_value (c : ioprio_class) : Z :=
  match c with
  | CLASS_NONE => 0
  | CLASS_RT => 1
  | CLASS_BE => 2
  | CLASS_IDLE => 3
  end.

Definition IOPRIO_CLASS_NONE : Z := class_value CLASS_NONE.
Definition IOPRIO_CLASS_RT : Z := class_value CLASS_RT.
Definition IOPRIO_CLASS_BE : Z := class_value CLASS_BE.
Definition IOPRIO_CLASS_IDLE : Z := class_value CLASS_IDLE.

(** [#define ioprio_valid(mask)
     (IOPRIO_PRIO_CLASS((mask)) != IOPRIO_CLASS_NONE)] *)
Definition ioprio_valid (mask : Z) : bool :=
  negb (IOPRIO_PRIO_CLASS mask =? IOPRIO_CLASS_NONE).

Definition IOPRIO_BE_NR : Z := 8.

(** The second anonymous [enum]. *)
Definition IOPRIO_WHO_PROCESS : Z := 1.
Definition IOPRIO_WHO_PGRP : Z := 2.
Definition IOPRIO_WHO_USER : Z := 3.

Definition IOPRIO_NORM : Z := 4.

(** The classes an [int] can carry through [IOPRIO_PRIO_VALUE] without
    the shift leaving the type: the four of the [enum] and every other
    value below [2 ^ 18]. *)
Definition class_in_range (c : Z) : Prop := 0 <= c < 2 ^ 18.
Definition data_in_range (d : Z) : Prop := 0 <= d < 2 ^ IOPRIO_CLASS_SHIFT.

End Ioprio.

(* ===================================================================== *)
(** * linux/msm_mdp.h: the post-processing block macros *)
(* ===================================================================== *)

Module MsmMdp.

(** The conversion to [uint32_t] (and to [unsigned int]). *)
Definition to_uint32 (z : Z) : Z := z mod 2 ^ 32.

Definition MDSS_PP_DSPP_CFG : Z := 0x000.
Definition MDSS_PP_SSPP_CFG : Z := 0x100.
Definition MDSS_PP_LM_CFG : Z := 0x200.
Definition MDSS_PP_WB_CFG : Z := 0x300.
Definition MDSS_PP_ARG_MASK : Z := 0x3C00.
Definition MDSS_PP_ARG_NUM : Z := 4.
Definition MDSS_PP_ARG_SHIFT : Z := 10.
Definition MDSS_PP_LOCATION_MASK : Z := 0x0300.
Definition MDSS_PP_LOGICAL_MASK : Z := 0x00FF.

(** [#define MDSS_PP_ADD_ARG(var, arg)
     ((var) | (0x1 << (MDSS_PP_ARG_SHIFT + (arg))))]: [var] is the
    [uint32_t block] of a configuration, the shift is done on [int]s and
    its result converted to [unsigned int] for the disjunction. *)
Definition MDSS_PP_ADD_ARG (var arg : Z) : Z :=
  to_uint32 (Z.lor var
               (to_uint32 (Ioprio.to_int (Z.shiftl 0x1 (MDSS_PP_ARG_SHIFT + arg))))).

(** [#define PP_ARG(x, var) ((var) & (0x1 << (MDSS_PP_ARG_SHIFT + (x))))] *)
Definition PP_ARG (x var : Z) : Z :=
  to_uint32 (Z.land var
               (to_uint32 (Ioprio.to_int (Z.shiftl 0x1 (MDSS_PP_ARG_SHIFT + x))))).

(** [#define PP_LOCAT(var) ((var) & MDSS_PP_LOCATION_MASK)] *)
Definition PP_LOCAT (var : Z) : Z :=
  to_uint32 (Z.land var (to_uint32 MDSS_PP_LOCATION_MASK)).

(** [#define PP_BLOCK(var) ((var) & MDSS_PP_LOGICAL_MASK)] *)
Definition PP_BLOCK (var : Z) : Z :=
  to_uint32 (Z.land var (to_uint32 MDSS_PP_LOGICAL_MASK)).

(** The values of a [uint32_t], and the numbers of the arguments. *)
Definition is_uint32 (z : Z) : Prop := 0 <= z < 2 ^ 32.
Definition is_pp_arg (arg : Z) : Prop := 0 <= arg < MDSS_PP_ARG_NUM.

(** The four places a block can be in. *)
Definition is_pp_location (loc : Z) : Prop :=
  loc = MDSS_PP_DSPP_CFG \/ loc = MDSS_PP_SSPP_CFG \/
  loc = MDSS_PP_LM_CFG \/ loc = MDSS_PP_WB_CFG.

End MsmMdp.

(* ===================================================================== *)
(** * The C library around the function *)
(* ===================================================================== *)

Module Libc.

(** ** Constants of the kernel headers

    [errno.h], [sys/prctl.h] and [fcntl.h] are not among the sources;
    the values are the ones Linux gives these names. *)
Definition EINTR : Z := 4.
(** The same code, as the kernel hands it out. *)
Definition EINTR_code : positive := Z.to_pos EINTR.
Definition EIO : Z := 5.
Definition EINVAL : Z := 22.
Definition ERANGE : Z := 34.
Definition PR_SET_NAME : Z := 15.
Definition O_RDWR : Z := 2.

(** ** System calls

    What the kernel answers to a call: success with a value, or failure
    with an error code, which is a positive number. *)
Variant result (A : Type) : Type :=
| Success (value : A)
| Failure (code : positive).
Arguments Failure {A} code.

(** The four calls the function makes.  A pointer argument is
    represented by the bytes the kernel reads through it.
    [prctl(PR_SET_NAME)] and [close] yield nothing but success,
    [open] a new descriptor and [write] the number of bytes taken. *)
Variant syscallE : Type -> Type :=
| sys_prctl (option : Z) (arg2 : string) (arg3 arg4 arg5 : Z)
  : syscallE (result unit)
| sys_open (pathname : string) (flags : Z) : syscallE (result N)
| sys_write (fd : Z) (bytes : string) : syscallE (result N)
| sys_close (fd : Z) : syscallE (result unit).

(** ** Code that runs with the thread's [errno]

    A computation takes the value of [errno] and yields, after some
    system calls, the new value of [errno] and its result. *)
Definition libc (R : Type) : Type := Z -> itree syscallE (Z * R).

Definition ret {R} (r : R) : libc R :=
  fun errno => Ret (errno, r).

Definition bind {R S} (m : libc R) (k : R -> libc S) : libc S :=
  fun errno => ITree.bind (m errno) (fun out => k (snd out) (fst out)).

Declare Scope libc_scope.
Delimit Scope libc_scope with libc.
Notation "x <- m ;; k" := (bind m (fun x => k))
  (at level 61, m at next level, right associativity) : libc_scope.

(** Reading the variable [errno]. *)
Definition get_errno : libc Z :=
  fun errno => Ret (errno, errno).

(** Modelled from the spec: the system-call wrappers ([prctl], [open],
    [write], [close]) are library code outside the sources.  A call
    that fails stores "the underlying [errno]" and returns [-1]; a
    call that succeeds returns its value and leaves [errno] alone. *)
Definition wrapper_outcome {A} (value : A -> Z) (errno : Z)
           (answer : result A) : Z * Z :=
  match answer with
  | Success a => (errno, value a)
  | Failure code => (Z.pos code, -1)
  end.

Definition syscall {A} (call : syscallE (result A)) (value : A -> Z) : libc Z :=
  fun errno =>
    ITree.bind (ITree.trigger call) (fun answer =>
      Ret (wrapper_outcome value errno answer)).

(** ** Strings

    A [string] stands for the bytes found at a [char*], a terminator
    being understood after the last one. *)
Definition NUL : ascii := Ascii.zero.

Fixpoint strlen (s : string) : Z :=
  match s with
  | EmptyString => 0
  | String c s' => if Ascii.eqb c NUL then 0 else 1 + strlen s'
  end.

(** The bytes of a C string: those before its terminator. *)
Fixpoint c_str (s : string) : string :=
  match s with
  | EmptyString => EmptyString
  | String c s' => if Ascii.eqb c NUL then EmptyString else String c (c_str s')
  end.

(** [sizeof] of a string literal counts its terminator. *)
Definition sizeof_literal (s : string) : Z := Z.of_nat (String.length s) + 1.

(** ** The wrappers *)
Definition prctl (option : Z) (arg2 : string) (arg3 arg4 arg5 : Z) : libc Z :=
  syscall (sys_prctl option arg2 arg3 arg4 arg5) (fun _ => 0).

Definition open (pathname : string) (flags : Z) : libc Z :=
  syscall (sys_open pathname flags) Z.of_N.

(** [write(fd, buf, count)] hands the first [count] bytes at [buf] to
    the kernel. *)
Definition write (fd : Z) (buf : string) (count : Z) : libc Z :=
  syscall (sys_write fd (substring 0 (Z.to_nat count) buf)) Z.of_N.

Definition close (fd : Z) : libc Z :=
  syscall (sys_close fd) (fun _ => 0).

(** ** [snprintf] with a [%u] conversion *)

Definition digit (d : Z) : ascii := ascii_of_nat (48 + Z.to_nat d).

(** The decimal digits of [n], the last one first. *)
Fixpoint digits_of (fuel : nat) (n : Z) : list Z :=
  match fuel with
  | O => []
  | S fuel' =>
      n mod 10 :: (if n / 10 =? 0 then [] else digits_of fuel' (n / 10))
  end.

Definition string_of_digits (ds : list Z) : string :=
  fold_left (fun acc d => String (digit d) acc) ds EmptyString.

(** [%u]: a number has no more decimal digits than binary ones. *)
Definition utoa (n : Z) : string :=
  string_of_digits (digits_of (S (Z.to_nat (Z.log2 n))) n).
Arguments utoa : simpl never.

(** The text [fmt] expands to, [arg] standing for its [%u]. *)
Fixpoint expand (fmt : string) (arg : Z) : string :=
  match fmt with
  | EmptyString => EmptyString
  | String c rest =>
      match rest with
      | String c' rest' =>
          if Ascii.eqb c "%" && Ascii.eqb c' "u"
          then utoa arg ++ expand rest' arg
          else String c (expand rest arg)
      | EmptyString => String c EmptyString
      end
  end.

(** [snprintf(buf, size, fmt, arg)] leaves in [buf] the expansion cut
    to [size - 1] bytes, and a terminator. *)
Definition snprintf (size : Z) (fmt : string) (arg : Z) : string :=
  substring 0 (Z.to_nat (size - 1)) (expand fmt arg).

(** ** [TEMP_FAILURE_RETRY]

    Modelled from the spec: the macro comes from [unistd.h], which is
    not among the sources.  It is "retrying the write automatically if
    interrupted by a signal": the expression is evaluated again for as
    long as it yields [-1] with [errno] at [EINTR]. *)
Definition TEMP_FAILURE_RETRY (exp : libc Z) : libc Z :=
  ITree.iter (fun errno =>
    ITree.bind (exp errno) (fun out =>
      if (snd out =? -1) && (fst out =? EINTR)
      then Ret (inl (fst out))
      else Ret (inr out))).

(** ** [ErrnoRestorer]

    Modelled from the spec: the class comes from
    [private/ErrnoRestorer.h], which is not among the sources.  An
    object of it keeps the value [errno] has when it is declared and
    puts it back when its scope is left, after the value to return has
    been computed: errors are "returned synchronously to the caller" and
    in no other way. *)
Definition ErrnoRestorer {R} (scope : libc R) : libc R :=
  fun errno => ITree.bind (scope errno) (fun out => Ret (errno, snd out)).

End Libc.

(* ===================================================================== *)
(** * bionic/pthread_setname_np.cpp *)
(* ===================================================================== *)

Module Pthread.
Import Libc.

(** A thread handle is the address of the thread's descriptor. *)
Definition pthread_t : Type := Z.

(** [pthread_internal.h] is not among the sources; of the descriptor
    the function reads the [kernel_id] field alone, a [pid_t]. *)
Record pthread_internal_t : Type := { kernel_id : Z }.

(** This value is not exported by kernel headers. *)
Definition MAX_TASK_COMM_LEN : Z := 16.
Definition TASK_COMM_FMT : string := "/proc/self/task/%u/comm".

(** The conversion [(unsigned int)]. *)
Definition to_unsigned_int (z : Z) : Z := z mod 2 ^ 32.

(** [char comm_name[sizeof(TASK_COMM_FMT) + 8]] *)
Definition sizeof_comm_name : Z := sizeof_literal TASK_COMM_FMT + 8.

Section Setname.

(** The handle [pthread_self()] gives the calling thread. *)
Variable pthread_self : pthread_t.

(** The descriptor found at a handle:
    [reinterpret_cast<pthread_internal_t*>(thread)]. *)
Variable descriptor : pthread_t -> pthread_internal_t.

(** [int pthread_setname_np(pthread_t thread, const char* thread_name)];
    [None] is the null pointer.  In [(size_t)n != thread_name_len]
    the number [n] is not negative, so that the conversion keeps it. *)
Definition pthread_setname_np (thread : pthread_t)
           (thread_name : option string) : libc Z :=
  ErrnoRestorer
    match thread_name with
    | None => ret EINVAL
    | Some name =>
        if thread =? 0 then ret EINVAL else
        let thread_name_len := strlen name in
        if thread_name_len >=? MAX_TASK_COMM_LEN then ret ERANGE else
        (* Changing our own name is an easy special case. *)
        if thread =? pthread_self then
          rc <- prctl PR_SET_NAME name 0 0 0 ;;
          if negb (rc =? 0) then get_errno else ret 0
        else
        (* Have to change another thread's name. *)
        let t := descriptor thread in
        let comm_name :=
          snprintf sizeof_comm_name TASK_COMM_FMT
                   (to_unsigned_int (kernel_id t)) in
        fd <- open comm_name O_RDWR ;;
        if fd =? -1 then get_errno else
        n <- TEMP_FAILURE_RETRY (write fd name thread_name_len) ;;
        _ <- close fd ;;
        if n <? 0 then get_errno
        else if negb (n =? thread_name_len) then ret EIO
        else ret 0
    end%libc.

End Setname.

End Pthread.

(* ===================================================================== *)
(** * Runs of a program *)
(* ===================================================================== *)

Module Run.
Import Libc.

(** One system call with the answer it got. *)
Variant event : Type :=
| ev_prctl (option : Z) (arg2 : string) (arg3 arg4 arg5 : Z)
           (answer : result unit)
| ev_open (pathname : string) (flags : Z) (answer : result N)
| ev_write (fd : Z) (bytes : string) (answer : result N)
| ev_close (fd : Z) (answer : result unit).

Definition record {X} (call : syscallE X) : X -> event :=
  match call in syscallE X return X -> event with
  | sys_prctl option arg2 arg3 arg4 arg5 => ev_prctl option arg2 arg3 arg4 arg5
  | sys_open pathname flags => ev_open pathname flags
  | sys_write fd bytes => ev_write fd bytes
  | sys_close fd => ev_close fd
  end.

(** [runs t tr r]: the program [t] comes to an end with result [r]
    after the calls and answers of [tr], in this order. *)
Inductive runs {R : Type} (t : itree syscallE R) : list event -> R -> Prop :=
| runs_ret r :
    observe t = RetF r ->
    runs t [] r
| runs_tau t' tr r :
    observe t = TauF t' ->
    runs t' tr r ->
    runs t tr r
| runs_vis X (call : syscallE X) k (answer : X) tr r :
    observe t = VisF call k ->
    runs (k answer) tr r ->
    runs t (record call answer :: tr) r.

(** ** Running a program on prepared answers

    An answer of the kernel, whatever the call. *)
Variant answer : Type :=
| nothing (r : result unit)
| number (r : result N).

(** The answer as the call expects it, when it is of the right kind. *)
Definition answer_to {X} (call : syscallE X) (a : answer) : option X :=
  match call in syscallE X return option X with
  | sys_prctl _ _ _ _ _ | sys_close _ =>
      match a with nothing r => Some r | number _ => None end
  | sys_open _ _ | sys_write _ _ =>
      match a with number r => Some r | nothing _ => None end
  end.

(** [exec fuel t answers] runs [t], giving its calls the [answers] one
    after the other; it gives up when the fuel or the answers run out,
    when an answer is of the wrong kind or when answers are left over. *)
Fixpoint exec {R} (fuel : nat) (t : itree syscallE R) (answers : list answer)
  : option (list event * R) :=
  match fuel with
  | O => None
  | S fuel' =>
      match observe t with
      | RetF r =>
          match answers with
          | [] => Some ([], r)
          | _ :: _ => None
          end
      | TauF t' => exec fuel' t' answers
      | VisF call k =>
          match answers with
          | [] => None
          | a :: answers' =>
              match answer_to call a with
              | None => None
              | Some x =>
                  match exec fuel' (k x) answers' with
                  | Some (tr, r) => Some (record call x :: tr, r)
                  | None => None
                  end
              end
          end
      end
  end.

(** The kinds of event. *)
Definition is_prctl (ev : event) : bool :=
  match ev with ev_prctl _ _ _ _ _ _ => true | _ => false end.
Definition is_open (ev : event) : bool :=
  match ev with ev_open _ _ _ => true | _ => false end.
Definition is_write (ev : event) : bool :=
  match ev with ev_write _ _ _ => true | _ => false end.
Definition is_close (ev : event) : bool :=
  match ev with ev_close _ _ => true | _ => false end.

(** The error code of an event whose call failed. *)
Definition failure_code (ev : event) : option positive :=
  match ev with
  | ev_prctl _ _ _ _ _ (Failure code)
  | ev_open _ _ (Failure code)
  | ev_write _ _ (Failure code)
  | ev_close _ (Failure code) => Some code
  | _ => None
  end.

End Run.

(* ===================================================================== *)
(** * Words to speak of a call of [pthread_setname_np] *)
(* ===================================================================== *)

Module Behaviour.
Import Libc Pthread Run.
Local Open Scope list_scope.

(** The number a list of decimal digits stands for, the last digit
    first. *)
Fixpoint value_of (ds : list Z) : Z :=
  match ds with
  | [] => 0
  | d :: ds' => d + 10 * value_of ds'
  end.

(** The comm file of the task with kernel id [id]. *)
Definition task_comm_path (id : Z) : string :=
  ("/proc/self/task/" ++ utoa id ++ "/comm")%string.
Arguments task_comm_path : simpl never.

(** The calls made for another thread once its comm file is open: the
    writes that were interrupted, the write that was not, the close. *)
Definition other_thread_trace (path : string) (fd : N) (bytes : string)
           (interruptions : nat) (written : result N) (closed : result unit)
  : list event :=
  ev_open path O_RDWR (Success fd) ::
  repeat (ev_write (Z.of_N fd) bytes (Failure EINTR_code)) interruptions ++
  [ev_write (Z.of_N fd) bytes written; ev_close (Z.of_N fd) closed].

(** What lines 73 to 78 return, from the answers to the last write and
    to the close. *)
Definition write_verdict (thread_name_len : Z) (written : result N)
           (closed : result unit) : Z :=
  match written, closed with
  | Success n, _ => if Z.of_N n =? thread_name_len then 0 else EIO
  | Failure code, Success _ => Z.pos code
  | Failure _, Failure code => Z.pos code
  end.

(** The runs of a call, read off the source: the calls made, the answers
    they may get, and what comes back for each ([errno] and the value
    returned). *)
Definition behaviour (self : pthread_t) (descriptor : pthread_t -> pthread_internal_t)
           (thread : pthread_t) (thread_name : option string) (errno : Z)
           (tr : list event) (out : Z * Z) : Prop :=
  match thread_name with
  | None => tr = [] /\ out = (errno, EINVAL)
  | Some name =>
      if thread =? 0 then tr = [] /\ out = (errno, EINVAL)
      else if strlen name >=? MAX_TASK_COMM_LEN then tr = [] /\ out = (errno, ERANGE)
      else if thread =? self then
        exists answer,
          tr = [ev_prctl PR_SET_NAME name 0 0 0 answer] /\
          out = (errno, match answer with
                        | Success _ => 0
                        | Failure code => Z.pos code
                        end)
      else
        let path := task_comm_path (to_unsigned_int (kernel_id (descriptor thread))) in
        (exists code,
            tr = [ev_open path O_RDWR (Failure code)] /\
            out = (errno, Z.pos code)) \/
        (exists fd interruptions written closed,
            written <> Failure EINTR_code /\
            tr = other_thread_trace path fd (c_str name) interruptions written closed /\
            out = (errno, write_verdict (strlen name) written closed))
  end.

(** ** The failure conditions *)

Definition invalid_arguments (thread : pthread_t) (thread_name : option string) : Prop :=
  thread = 0 \/ thread_name = None.

Definition name_too_long (thread_name : option string) : Prop :=
  exists name, thread_name = Some name /\ MAX_TASK_COMM_LEN <= strlen name.

(** The target task file could not be opened. *)
Definition open_failed (tr : list event) : Prop :=
  exists pathname flags code, In (ev_open pathname flags (Failure code)) tr.

(** A write failed for good: not by a mere interruption. *)
Definition write_failed (tr : list event) : Prop :=
  exists fd bytes code,
    In (ev_write fd bytes (Failure code)) tr /\ code <> EINTR_code.

(** A write took some bytes, but not all the bytes of the name. *)
Definition partial_write (thread_name : option string) (tr : list event) : Prop :=
  exists name fd bytes n,
    thread_name = Some name /\
    In (ev_write fd bytes (Success n)) tr /\ Z.of_N n <> strlen name.

Definition prctl_failed (tr : list event) : Prop :=
  exists option arg2 arg3 arg4 arg5 code,
    In (ev_prctl option arg2 arg3 arg4 arg5 (Failure code)) tr.

(** "Failure conditions: invalid arguments (null name or null handle),
    name too long, target task file unopenable, write failure, partial
    write." *)
Definition listed_failure (thread : pthread_t) (thread_name : option string)
           (tr : list event) : Prop :=
  invalid_arguments thread thread_name \/
  name_too_long thread_name \/
  open_failed tr \/
  write_failed tr \/
  partial_write thread_name tr.

(** The value is the [errno] of a system call of the run that failed. *)
Definition errno_of_failed_call (tr : list event) (value : Z) : Prop :=
  exists ev code, In ev tr /\ failure_code ev = Some code /\ value = Z.pos code.

(** The values a call may return. *)
Definition plain_error_code (tr : list event) (value : Z) : Prop :=
  value = 0 \/ value = EINVAL \/ value = ERANGE \/ value = EIO \/
  errno_of_failed_call tr value.

(** The name bytes an event shows the kernel are fewer than
    [MAX_TASK_COMM_LEN]. *)
Definition shows_short_name (ev : event) : Prop :=
  match ev with
  | ev_prctl _ arg2 _ _ _ _ => strlen arg2 < MAX_TASK_COMM_LEN
  | ev_write _ bytes _ => Z.of_nat (String.length bytes) < MAX_TASK_COMM_LEN
  | ev_open _ _ _ | ev_close _ _ => True
  end.

(** The run starts with the request to rename: the [prctl] call or the
    opening of the comm file. *)
Definition attempts_rename (tr : list event) : Prop :=
  exists ev tr', tr = ev :: tr' /\ (is_prctl ev = true \/ is_open ev = true).

End Behaviour.

(* ===================================================================== *)
(** * A process with two threads, for the examples *)
(* ===================================================================== *)

Module Example.
Import Libc Pthread Run Behaviour.

Definition main_thread : pthread_t := 4096.
Definition worker_thread : pthread_t := 8192.

Definition descriptor (thread : pthread_t) : pthread_internal_t :=
  {| kernel_id := if thread =? main_thread then 1000 else 1001 |}.

(** The function as the main thread calls it. *)
Definition setname : pthread_t -> option string -> libc Z :=
  pthread_setname_np main_thread descriptor.

Definition worker_comm : string := "/proc/self/task/1001/comm".

(** Renaming the worker: one write is interrupted, the next one takes
    the six bytes.  The answers of the kernel, and the run they make. *)
Definition renamed_worker_answers : list answer :=
  [number (Success 3%N); number (Failure EINTR_code); number (Success 6%N);
   nothing (Success tt)].

Definition renamed_worker : list event :=
  other_thread_trace worker_comm 3 "worker" 1 (Success 6%N) (Success tt).

(** Renaming the worker: the write takes four bytes of the six. *)
Definition short_write_answers : list answer :=
  [number (Success 3%N); number (Success 4%N); nothing (Success tt)].

Definition short_write : list event :=
  other_thread_trace worker_comm 3 "worker" 0 (Success 4%N) (Success tt).

(** [EPERM] and [EACCES], as the kernel hands them out. *)
Definition EPERM_code : positive := 1.
Definition EACCES_code : positive := 13.

(** Renaming the worker: the write is refused. *)
Definition denied_write_answers : list answer :=
  [number (Success 3%N); number (Failure EACCES_code); nothing (Success tt)].

Definition denied_write : list event :=
  other_thread_trace worker_comm 3 "worker" 0 (Failure EACCES_code) (Success tt).

(** Renaming the worker: the write is refused, and then the close
    fails too. *)
Definition EBADF_code : positive := 9.

Definition failed_close_answers : list answer :=
  [number (Success 3%N); number (Failure EACCES_code); nothing (Failure EBADF_code)].

Definition failed_close : list event :=
  other_thread_trace worker_comm 3 "worker" 0 (Failure EACCES_code)
                     (Failure EBADF_code).

(** Renaming the worker to the empty name. *)
Definition unnamed_worker : list event :=
  other_thread_trace worker_comm 3 "" 0 (Success 0%N) (Success tt).

(** Renaming the worker: the six bytes are written, the close fails. *)
Definition late_failure_answers : list answer :=
  [number (Success 3%N); number (Success 6%N); nothing (Failure EBADF_code)].

Definition late_failure : list event :=
  other_thread_trace worker_comm 3 "worker" 0 (Success 6%N) (Failure EBADF_code).

(** Renaming oneself, the kernel refusing the [prctl] call. *)
Definition refused_prctl_answers : list answer :=
  [nothing (Failure EPERM_code)].

Definition refused_prctl : list event :=
  [ev_prctl PR_SET_NAME "main" 0 0 0 (Failure EPERM_code)].

End Example.

(* ===================================================================== *)
(** * Facts about the [ioprio] macros *)
(* ===================================================================== *)

Module IoprioFacts.
Import Ioprio.

Lemma class_value_in_range (c : ioprio_class) : class_in_range (class_value c).
Proof. destruct c; unfold class_in_range; cbn; lia. Qed.

Lemma to_int_small (z : Z) : - 2 ^ 31 <= z < 2 ^ 31 -> to_int z = z.
Proof.
  intros H. unfold to_int. rewrite Z.mod_small; lia.
Qed.

Lemma to_ulong_small (w z : Z) : 0 <= z < 2 ^ w -> to_ulong w z = z.
Proof. intros H. unfold to_ulong. now apply Z.mod_small. Qed.

Lemma shifted_class_bounds (c : Z) :
  class_in_range c -> 0 <= Z.shiftl c IOPRIO_CLASS_SHIFT < 2 ^ 31.
Proof.
  unfold class_in_range, IOPRIO_CLASS_SHIFT. intros H.
  rewrite Z.shiftl_mul_pow2 by lia. lia.
Qed.

(** A disjunction of two numbers that share no bit is their sum. *)
Lemma lor_disjoint (a d n : Z) :
  0 <= n -> 0 <= d < 2 ^ n -> Z.lor (a * 2 ^ n) d = a * 2 ^ n + d.
Proof.
  intros Hn Hd.
  assert (Hland : Z.land (a * 2 ^ n) d = 0).
  { apply Z.bits_inj'. intros i Hi. rewrite Z.land_spec, Z.bits_0.
    destruct (Z.ltb_spec i n) as [Hlt | Hge].
    - rewrite Z.mul_pow2_bits_low by lia. reflexivity.
    - destruct (Z.eq_dec d 0) as [-> | Hnz].
      + rewrite Z.bits_0. apply andb_false_r.
      + rewrite (Z.bits_above_log2 d i); [apply andb_false_r | lia |].
        apply Z.lt_le_trans with n; [| assumption].
        apply Z.log2_lt_pow2; lia. }
  rewrite Z.add_nocarry_lxor by assumption.
  symmetry. now apply Z.lxor_lor.
Qed.

(** The packed value, as a sum: the class sits above bit 13 and the
    data below, so the disjunction adds them. *)
Lemma value_as_sum (c d : Z) :
  class_in_range c -> data_in_range d ->
  IOPRIO_PRIO_VALUE c d = c * 2 ^ 13 + d.
Proof.
  intros Hc Hd. unfold IOPRIO_PRIO_VALUE.
  pose proof (shifted_class_bounds Hc) as Hs.
  rewrite (to_int_small (z := Z.shiftl c IOPRIO_CLASS_SHIFT)) by lia.
  unfold class_in_range, data_in_range, IOPRIO_CLASS_SHIFT in *.
  rewrite Z.shiftl_mul_pow2 by lia.
  rewrite lor_disjoint by lia.
  apply to_int_small. lia.
Qed.

Lemma mask_is_ones (ulong_bits : Z) :
  32 <= ulong_bits -> IOPRIO_PRIO_MASK ulong_bits = Z.ones IOPRIO_CLASS_SHIFT.
Proof.
  intros Hw. unfold IOPRIO_PRIO_MASK, IOPRIO_CLASS_SHIFT.
  assert (Hpow : 2 ^ 32 <= 2 ^ ulong_bits) by (apply Z.pow_le_mono_r; lia).
  rewrite (@to_ulong_small ulong_bits (Z.shiftl 1 13)) by (cbn; lia).
  rewrite to_ulong_small by (cbn; lia). reflexivity.
Qed.

(** C10.  For every class [c] (the four classes of the [enum], and any
    other that the shift keeps inside an [int]) and every data value
    [d] with [0 <= d < 2 ^ 13], the class and the data are read back
    from [IOPRIO_PRIO_VALUE(c, d)] as they were put in, and the value is
    valid exactly when [c] is not [IOPRIO_CLASS_NONE]. *)
Theorem ioprio_value_round_trip (ulong_bits c d : Z) :
  32 <= ulong_bits -> class_in_range c -> data_in_range d ->
  IOPRIO_PRIO_CLASS (IOPRIO_PRIO_VALUE c d) = c /\
  IOPRIO_PRIO_DATA ulong_bits (IOPRIO_PRIO_VALUE c d) = d /\
  (ioprio_valid (IOPRIO_PRIO_VALUE c d) = true <-> c <> IOPRIO_CLASS_NONE).
Proof.
  intros Hw Hc Hd. rewrite (value_as_sum Hc Hd).
  unfold class_in_range, data_in_range, IOPRIO_CLASS_SHIFT in Hc, Hd.
  assert (Hclass : IOPRIO_PRIO_CLASS (c * 2 ^ 13 + d) = c).
  { unfold IOPRIO_PRIO_CLASS, IOPRIO_CLASS_SHIFT.
    rewrite Z.shiftr_div_pow2 by lia.
    rewrite Z.div_add_l by lia. rewrite Z.div_small by lia. lia. }
  split; [assumption |]. split.
  - unfold IOPRIO_PRIO_DATA. rewrite mask_is_ones by assumption.
    assert (Hpow : 2 ^ 32 <= 2 ^ ulong_bits) by (apply Z.pow_le_mono_r; lia).
    rewrite to_ulong_small by lia.
    unfold IOPRIO_CLASS_SHIFT. rewrite Z.land_ones by lia.
    rewrite Z.add_comm, Z.mod_add by lia. apply Z.mod_small. lia.
  - unfold ioprio_valid. rewrite Hclass, negb_true_iff, Z.eqb_neq. reflexivity.
Qed.

Lemma ioprio_value_round_trip_witness :
  IOPRIO_PRIO_CLASS (IOPRIO_PRIO_VALUE IOPRIO_CLASS_BE IOPRIO_NORM) = IOPRIO_CLASS_BE /\
  IOPRIO_PRIO_DATA 32 (IOPRIO_PRIO_VALUE IOPRIO_CLASS_BE IOPRIO_NORM) = IOPRIO_NORM /\
  (ioprio_valid (IOPRIO_PRIO_VALUE IOPRIO_CLASS_BE IOPRIO_NORM) = true <->
   IOPRIO_CLASS_BE <> IOPRIO_CLASS_NONE).
Proof.
  apply (@ioprio_value_round_trip 32 IOPRIO_CLASS_BE IOPRIO_NORM).
  - lia.
  - unfold class_in_range, IOPRIO_CLASS_BE, class_value. lia.
  - unfold data_in_range, IOPRIO_NORM, IOPRIO_CLASS_SHIFT. lia.
Defined.

End IoprioFacts.

(* ===================================================================== *)
(** * Facts about runs *)
(* ===================================================================== *)

Module RunFacts.
Import Libc Run.
Local Open Scope list_scope.

Section Generic.
Context {R : Type}.
Implicit Types (t u : itree syscallE R) (tr : list event) (r : R).

(** A run depends on the first node of the program alone. *)
Lemma runs_observe t u tr r :
  observe t = observe u -> runs t tr r -> runs u tr r.
Proof.
  intros Hobs Hrun. destruct Hrun as [r Ht | t' tr r Ht Hrun | X call k answer tr r Ht Hrun].
  - apply runs_ret. congruence.
  - apply runs_tau with t'; congruence.
  - apply runs_vis with k; congruence.
Qed.

Lemma runs_Ret_iff (x : R) tr r :
  runs (Ret x) tr r <-> tr = [] /\ r = x.
Proof.
  split.
  - intros Hrun. inversion Hrun as [r' Ht | t' tr' r' Ht | X call k answer tr' r' Ht];
      cbn in Ht; try discriminate.
    injection Ht as ->. auto.
  - intros [-> ->]. now apply runs_ret.
Qed.

Lemma runs_Tau_iff t tr r :
  runs (Tau t) tr r <-> runs t tr r.
Proof.
  split.
  - intros Hrun. inversion Hrun as [r' Ht | t' tr' r' Ht Hrun' | X call k answer tr' r' Ht];
      cbn in Ht; try discriminate.
    injection Ht as ->. assumption.
  - intros Hrun. now apply runs_tau with t.
Qed.

Lemma runs_Vis_iff X (call : syscallE X) (k : X -> itree syscallE R) tr r :
  runs (Vis call k) tr r <->
  exists answer tr', tr = record call answer :: tr' /\ runs (k answer) tr' r.
Proof.
  split.
  - intros Hrun.
    inversion Hrun as [r' Ht | t' tr' r' Ht | X' call' k' answer tr' r' Ht Hrun'];
      cbn in Ht; try discriminate.
    inversion Ht as [[HX Hcall Hk]]. subst X'.
    apply inj_pair2 in Hcall, Hk. subst call' k'.
    exists answer, tr'. auto.
  - intros (answer & tr' & -> & Hrun). now apply runs_vis with k.
Qed.

End Generic.

(** A run of [t] followed by [k] is a run of [t] and then one of [k]. *)
Lemma runs_bind_iff {R S} (t : itree syscallE R) (k : R -> itree syscallE S) tr s :
  runs (ITree.bind t k) tr s <->
  exists tr1 r tr2, runs t tr1 r /\ runs (k r) tr2 s /\ tr = tr1 ++ tr2.
Proof.
  split.
  - intros Hrun. remember (ITree.bind t k) as u eqn:Hu. revert t Hu.
    induction Hrun as [u s Hobs | u u' tr s Hobs Hrun IH | u X call h answer tr s Hobs Hrun IH];
      intros t ->; rewrite observe_bind in Hobs;
      destruct (observe t) as [r | t' | Y call' h'] eqn:Ht; cbn in Hobs; try discriminate.
    + exists [], r, []. repeat split; now apply runs_ret.
    + exists [], r, tr. repeat split; [now apply runs_ret |].
      now apply runs_tau with u'.
    + injection Hobs as <-. destruct (IH t' eq_refl) as (tr1 & r & tr2 & H1 & H2 & ->).
      exists tr1, r, tr2. repeat split; trivial. now apply runs_tau with t'.
    + exists [], r, (record call answer :: tr). repeat split; [now apply runs_ret |].
      now apply runs_vis with h.
    + inversion Hobs as [[HY Hcall Hh]]. subst Y.
      apply inj_pair2 in Hcall, Hh. subst call' h.
      destruct (IH (h' answer) eq_refl) as (tr1 & r & tr2 & H1 & H2 & ->).
      exists (record call answer :: tr1), r, tr2. repeat split; trivial.
      now apply runs_vis with h'.
  - intros (tr1 & r & tr2 & H1 & H2 & ->).
    induction H1 as [t r Hobs | t t' tr1 r Hobs Hrun IH | t X call h answer tr1 r Hobs Hrun IH].
    + apply (@runs_observe _ (k r)); [| assumption].
      rewrite observe_bind, Hobs. reflexivity.
    + apply runs_tau with (ITree.bind t' k); [| now apply IH].
      rewrite observe_bind, Hobs. reflexivity.
    + cbn. apply runs_vis with (fun x => ITree.bind (h x) k); [| now apply IH].
      rewrite observe_bind, Hobs. reflexivity.
Qed.

Lemma runs_trigger_iff {X} (call : syscallE X) tr (x : X) :
  runs (ITree.trigger call) tr x <-> tr = [record call x].
Proof.
  unfold ITree.trigger. rewrite runs_Vis_iff. split.
  - intros (answer & tr' & -> & Hrun). apply runs_Ret_iff in Hrun as [-> ->]. reflexivity.
  - intros ->. exists x, []. split; [reflexivity |]. now apply runs_Ret_iff.
Qed.

(** One turn of a loop. *)
Lemma runs_iter_iff {I R} (body : I -> itree syscallE (I + R)) (i : I) tr r :
  runs (ITree.iter body i) tr r <->
  exists tr1 next tr2,
    runs (body i) tr1 next /\ tr = tr1 ++ tr2 /\
    match next with
    | inl i' => runs (ITree.iter body i') tr2 r
    | inr r' => tr2 = [] /\ r = r'
    end.
Proof.
  split.
  - intros Hrun.
    apply (@runs_observe _ _ (ITree.bind (body i) (fun next =>
             match next with
             | inl i' => Tau (ITree.iter body i')
             | inr r' => Ret r'
             end))) in Hrun; [| reflexivity].
    apply runs_bind_iff in Hrun as (tr1 & next & tr2 & H1 & H2 & ->).
    exists tr1, next, tr2. repeat split; trivial.
    destruct next as [i' | r'].
    + exact (proj1 (runs_Tau_iff _ _ _) H2).
    + exact (proj1 (runs_Ret_iff _ _ _) H2).
  - intros (tr1 & next & tr2 & H1 & -> & H2).
    apply (@runs_observe _ (ITree.bind (body i) (fun next =>
             match next with
             | inl i' => Tau (ITree.iter body i')
             | inr r' => Ret r'
             end))); [reflexivity |].
    apply runs_bind_iff. exists tr1, next, tr2. repeat split; trivial.
    destruct next as [i' | r'].
    + exact (proj2 (runs_Tau_iff _ _ _) H2).
    + exact (proj2 (runs_Ret_iff _ _ _) H2).
Qed.

(** What [exec] computes is a run. *)
Lemma exec_sound {R} (fuel : nat) :
  forall (t : itree syscallE R) answers tr r,
    exec fuel t answers = Some (tr, r) -> runs t tr r.
Proof.
  induction fuel as [| fuel IH]; intros t answers tr r Hexec; cbn in Hexec;
    [discriminate |].
  destruct (observe t) as [r' | t' | X call k] eqn:Hobs.
  - destruct answers; [| discriminate]. injection Hexec as <- <-.
    now apply runs_ret.
  - apply runs_tau with t'; [assumption |]. now apply IH with answers.
  - destruct answers as [| a answers]; [discriminate |].
    destruct (answer_to call a) as [x |]; [| discriminate].
    destruct (exec fuel (k x) answers) as [[tr' r'] |] eqn:Hrest; [| discriminate].
    injection Hexec as <- <-.
    apply runs_vis with k; [assumption |]. now apply IH with answers.
Qed.

End RunFacts.

(* ===================================================================== *)
(** * Facts about the library code *)
(* ===================================================================== *)

Module LibcFacts.
Import Libc Run RunFacts.
Local Open Scope list_scope.

Lemma runs_ret_iff {R} (x : R) errno tr out :
  runs (ret x errno) tr out <-> tr = [] /\ out = (errno, x).
Proof. apply runs_Ret_iff. Qed.

Lemma runs_get_errno_iff errno tr out :
  runs (get_errno errno) tr out <-> tr = [] /\ out = (errno, errno).
Proof. apply runs_Ret_iff. Qed.

Lemma runs_libc_bind_iff {R S} (m : libc R) (k : R -> libc S) errno tr out :
  runs (bind m k errno) tr out <->
  exists tr1 errno1 r tr2,
    runs (m errno) tr1 (errno1, r) /\ runs (k r errno1) tr2 out /\ tr = tr1 ++ tr2.
Proof.
  unfold bind. rewrite runs_bind_iff. split.
  - intros (tr1 & [errno1 r] & tr2 & H1 & H2 & ->). now exists tr1, errno1, r, tr2.
  - intros (tr1 & errno1 & r & tr2 & H1 & H2 & ->). now exists tr1, (errno1, r), tr2.
Qed.

(** A wrapper makes its one call, whatever the answer. *)
Lemma runs_syscall_iff {A} (call : syscallE (result A)) (value : A -> Z) errno tr out :
  runs (syscall call value errno) tr out <->
  exists answer, tr = [record call answer] /\ out = wrapper_outcome value errno answer.
Proof.
  unfold syscall. rewrite runs_bind_iff. split.
  - intros (tr1 & answer & tr2 & H1 & H2 & ->).
    apply runs_trigger_iff in H1 as ->. apply runs_Ret_iff in H2 as [-> ->].
    now exists answer.
  - intros (answer & -> & ->). exists [record call answer], answer, [].
    repeat split; [now apply runs_trigger_iff | now apply runs_Ret_iff].
Qed.

Lemma interrupted_iff {A} (value : A -> Z) errno (answer : result A) :
  (forall a, value a <> -1) ->
  (snd (wrapper_outcome value errno answer) =? -1) &&
  (fst (wrapper_outcome value errno answer) =? EINTR) = true <->
  answer = Failure EINTR_code.
Proof.
  intros Hvalue. destruct answer as [a | code]; unfold wrapper_outcome, fst, snd.
  - split; [| discriminate]. intros H. apply andb_prop in H as [H _].
    apply Z.eqb_eq in H. now apply Hvalue in H.
  - rewrite Z.eqb_refl, andb_true_l, Z.eqb_eq. unfold EINTR_code, EINTR.
    split; [intros [= ->]; reflexivity | intros [= ->]; reflexivity].
Qed.

(** The loop of [TEMP_FAILURE_RETRY] around a wrapper: the call is
    made anew after each answer [EINTR], and the first other answer
    ends the loop. *)
Lemma runs_retry_iff {A} (call : syscallE (result A)) (value : A -> Z) errno tr out :
  (forall a, value a <> -1) ->
  runs (TEMP_FAILURE_RETRY (syscall call value) errno) tr out <->
  exists (interruptions : nat) (answer : result A),
    answer <> Failure EINTR_code /\
    tr = repeat (record call (Failure EINTR_code)) interruptions ++ [record call answer] /\
    out = wrapper_outcome value
            (match interruptions with O => errno | S _ => EINTR end) answer.
Proof.
  intros Hvalue. unfold TEMP_FAILURE_RETRY. split.
  - revert errno. induction tr as [tr IH] using (induction_ltof1 _ (@length event)).
    unfold ltof in IH. intros errno Hrun.
    apply runs_iter_iff in Hrun as (tr1 & next & tr2 & H1 & -> & H2).
    apply runs_bind_iff in H1 as (tr0 & out0 & tr0' & H0 & H0' & ->).
    apply runs_syscall_iff in H0 as (answer & -> & ->).
    pose proof (interrupted_iff value errno answer Hvalue) as Hint.
    destruct ((snd (wrapper_outcome value errno answer) =? -1) &&
              (fst (wrapper_outcome value errno answer) =? EINTR)) eqn:Htest;
      apply runs_Ret_iff in H0' as [-> ->].
    + assert (Hans : answer = Failure EINTR_code) by now apply Hint.
      subst answer. cbn in H2.
      apply IH in H2 as (j & answer & Hne & -> & ->).
      * exists (S j), answer. repeat split; trivial.
        destruct j; reflexivity.
      * cbn. lia.
    + destruct H2 as [-> ->]. exists O, answer. repeat split; trivial.
      intros Heq. apply Hint in Heq. discriminate.
  - intros (j & answer & Hne & -> & ->). revert errno.
    induction j as [| j IH]; intros errno.
    + apply runs_iter_iff. exists [record call answer], (inr (wrapper_outcome value errno answer)), [].
      repeat split. apply runs_bind_iff.
      exists [record call answer], (wrapper_outcome value errno answer), [].
      repeat split; [apply runs_syscall_iff; now exists answer |].
      pose proof (interrupted_iff value errno answer Hvalue) as Hint.
      destruct ((snd (wrapper_outcome value errno answer) =? -1) &&
                (fst (wrapper_outcome value errno answer) =? EINTR)) eqn:Htest.
      * exfalso. apply Hne. now apply Hint.
      * now apply runs_Ret_iff.
    + apply runs_iter_iff.
      exists [record call (Failure EINTR_code)], (inl EINTR),
             (repeat (record call (Failure EINTR_code)) j ++ [record call answer]).
      repeat split.
      * apply runs_bind_iff.
        exists [record call (Failure EINTR_code)],
               (wrapper_outcome value errno (Failure EINTR_code)), [].
        repeat split; [apply runs_syscall_iff; now exists (Failure EINTR_code) |].
        cbn. now apply runs_Ret_iff.
      * specialize (IH EINTR).
        destruct j; exact IH.
Qed.

End LibcFacts.

(* ===================================================================== *)
(** * Facts about strings and [snprintf] *)
(* ===================================================================== *)

Module StringFacts.
Import Libc Pthread Behaviour.

Lemma strlen_nonneg (s : string) : 0 <= strlen s.
Proof.
  induction s as [| c s IH]; cbn [strlen]; [lia |].
  destruct (Ascii.eqb c NUL); lia.
Qed.

(** [strlen] counts the bytes before the terminator. *)
Lemma strlen_c_str (s : string) : strlen s = Z.of_nat (String.length (c_str s)).
Proof.
  induction s as [| c s IH]; cbn [strlen c_str]; [reflexivity |].
  destruct (Ascii.eqb c NUL); cbn [String.length]; lia.
Qed.

(** Reading [strlen s] bytes at [s] gives these bytes, and no
    terminator. *)
Lemma substring_strlen (s : string) :
  substring 0 (Z.to_nat (strlen s)) s = c_str s.
Proof.
  induction s as [| c s IH]; cbn [strlen c_str]; [reflexivity |].
  destruct (Ascii.eqb c NUL); [reflexivity |].
  pose proof (strlen_nonneg s) as Hlen.
  replace (Z.to_nat (1 + strlen s)) with (S (Z.to_nat (strlen s))) by lia.
  cbn [substring]. now rewrite IH.
Qed.

Lemma c_str_no_NUL (s : string) :
  forall n, String.get n (c_str s) <> Some NUL.
Proof.
  induction s as [| c s IH]; intros n; cbn [c_str String.get]; [discriminate |].
  destruct (Ascii.eqb c NUL) eqn:Hc; cbn [String.get]; [discriminate |].
  destruct n as [| n]; [| apply IH].
  apply Ascii.eqb_neq in Hc. congruence.
Qed.

Lemma length_append (s1 s2 : string) :
  String.length (s1 ++ s2) = (String.length s1 + String.length s2)%nat.
Proof. induction s1 as [| c s1 IH]; cbn; congruence. Qed.

Lemma substring_all (n : nat) (s : string) :
  (String.length s <= n)%nat -> substring 0 n s = s.
Proof.
  revert n. induction s as [| c s IH]; intros [| n] H; cbn in *; try reflexivity; try lia.
  rewrite IH by lia. reflexivity.
Qed.

(** ** The decimal digits *)

Lemma length_string_of_digits (ds : list Z) :
  String.length (string_of_digits ds) = List.length ds.
Proof.
  unfold string_of_digits.
  assert (H : forall acc, String.length (fold_left (fun acc d => String (digit d) acc) ds acc)
                          = (List.length ds + String.length acc)%nat).
  { induction ds as [| d ds IH]; intros acc; cbn; [reflexivity |].
    rewrite IH. cbn. lia. }
  rewrite H. cbn. lia.
Qed.

(** A number below [10 ^ k] has at most [k] digits. *)
Lemma length_digits_of (fuel : nat) :
  forall (k : nat) (n : Z),
    (1 <= k)%nat -> 0 <= n < 10 ^ Z.of_nat k ->
    (List.length (digits_of fuel n) <= k)%nat.
Proof.
  induction fuel as [| fuel IH]; intros k n Hk Hn; cbn; [lia |].
  destruct (Z.eqb_spec (n / 10) 0) as [Hq | Hq]; cbn; [lia |].
  destruct k as [| [| k]]; [lia | |].
  - exfalso. apply Hq. apply Z.div_small. cbn in Hn. lia.
  - specialize (IH (S k) (n / 10)).
    assert (Hlt : n / 10 < 10 ^ Z.of_nat (S k)).
    { apply Z.div_lt_upper_bound; [lia |].
      replace (Z.of_nat (S (S k))) with (Z.succ (Z.of_nat (S k))) in Hn by lia.
      rewrite Z.pow_succ_r in Hn by lia. lia. }
    assert (0 <= n / 10) by (apply Z.div_pos; lia).
    apply le_n_S. apply IH; lia.
Qed.

(** With fuel for every binary digit, the decimal digits are all there. *)
Lemma value_of_digits_of (fuel : nat) :
  forall n : Z, 0 <= n < 2 ^ Z.of_nat fuel ->
    value_of (digits_of fuel n) = n /\
    Forall (fun d => 0 <= d < 10) (digits_of fuel n).
Proof.
  induction fuel as [| fuel IH]; intros n Hn.
  - cbn in *. split; [lia | constructor].
  - cbn [digits_of].
    assert (Hmod : 0 <= n mod 10 < 10) by (apply Z.mod_pos_bound; lia).
    destruct (Z.eqb_spec (n / 10) 0) as [Hq | Hq].
    + split; [| repeat constructor; lia].
      cbn. pose proof (Z.div_mod n 10). lia.
    + assert (Hlt : 0 <= n / 10 < 2 ^ Z.of_nat fuel).
      { split; [apply Z.div_pos; lia |].
        apply Z.div_lt_upper_bound; [lia |].
        replace (Z.of_nat (S fuel)) with (Z.succ (Z.of_nat fuel)) in Hn by lia.
        rewrite Z.pow_succ_r in Hn by lia. lia. }
      destruct (IH _ Hlt) as [Hval Hall]. split.
      * cbn [value_of]. rewrite Hval. pose proof (Z.div_mod n 10). lia.
      * constructor; assumption.
Qed.

Lemma enough_fuel (n : Z) : 0 <= n -> n < 2 ^ Z.of_nat (S (Z.to_nat (Z.log2 n))).
Proof.
  intros Hn. pose proof (Z.log2_nonneg n) as Hlog.
  replace (Z.of_nat (S (Z.to_nat (Z.log2 n)))) with (Z.succ (Z.log2 n)) by lia.
  destruct (Z.eq_dec n 0) as [-> | Hnz]; [cbn; lia |].
  apply Z.log2_spec. lia.
Qed.

(** [utoa] prints its argument: the digits it prints stand for it. *)
Lemma utoa_digits (n : Z) :
  0 <= n ->
  let ds := digits_of (S (Z.to_nat (Z.log2 n))) n in
  utoa n = string_of_digits ds /\ value_of ds = n /\
  Forall (fun d => 0 <= d < 10) ds.
Proof.
  intros Hn ds. split; [reflexivity |].
  apply value_of_digits_of. split; [assumption | now apply enough_fuel].
Qed.

(** An [unsigned int] prints in ten digits at most. *)
Lemma length_utoa (n : Z) :
  0 <= n < 2 ^ 32 -> (String.length (utoa n) <= 10)%nat.
Proof.
  intros Hn. unfold utoa. rewrite length_string_of_digits.
  apply length_digits_of; [lia |]. cbn. lia.
Qed.

Lemma to_unsigned_int_range (z : Z) : 0 <= to_unsigned_int z < 2 ^ 32.
Proof. unfold to_unsigned_int. apply Z.mod_pos_bound. lia. Qed.

(** The conversion keeps a kernel id that is not negative. *)
Lemma to_unsigned_int_id (z : Z) : 0 <= z < 2 ^ 32 -> to_unsigned_int z = z.
Proof. intros Hz. unfold to_unsigned_int. now apply Z.mod_small. Qed.

(** The buffer [comm_name] is large enough: nothing of the path is cut. *)
Lemma snprintf_comm_name (id : Z) :
  0 <= id < 2 ^ 32 ->
  snprintf sizeof_comm_name TASK_COMM_FMT id = task_comm_path id.
Proof.
  intros Hid. unfold snprintf, task_comm_path.
  apply substring_all.
  change (expand TASK_COMM_FMT id) with ("/proc/self/task/" ++ utoa id ++ "/comm")%string.
  rewrite !length_append. pose proof (length_utoa Hid) as Hlen.
  change (Z.to_nat (sizeof_comm_name - 1)) with 31%nat.
  generalize dependent (utoa id). intros digits Hlen. cbn. lia.
Qed.

End StringFacts.

(* ===================================================================== *)
(** * The runs of [pthread_setname_np] *)
(* ===================================================================== *)

Module SetnameFacts.
Import Libc Pthread Run Behaviour RunFacts LibcFacts StringFacts.
Local Open Scope list_scope.

(** What is returned is computed inside the scope of the
    [ErrnoRestorer]; [errno] is put back afterwards. *)
Lemma runs_ErrnoRestorer_iff {R} (scope : libc R) errno tr out :
  runs (ErrnoRestorer scope errno) tr out <->
  exists errno' r, runs (scope errno) tr (errno', r) /\ out = (errno, r).
Proof.
  unfold ErrnoRestorer. rewrite runs_bind_iff. split.
  - intros (tr1 & [errno' r] & tr2 & H1 & H2 & ->).
    apply runs_Ret_iff in H2 as [-> ->]. rewrite app_nil_r. now exists errno', r.
  - intros (errno' & r & H1 & ->). exists tr, (errno', r), [].
    rewrite app_nil_r. repeat split; trivial. now apply runs_Ret_iff.
Qed.

(** A scope that returns at once. *)
Lemma scope_ret_iff (x errno : Z) tr (out : Z * Z) :
  (exists errno' r, runs (ret x errno) tr (errno', r) /\ out = (errno, r)) <->
  tr = [] /\ out = (errno, x).
Proof.
  split.
  - intros (errno' & r & Hrun & ->). apply runs_ret_iff in Hrun as [-> [= _ ->]]. auto.
  - intros [-> ->]. exists errno, x. split; [now apply runs_ret_iff | reflexivity].
Qed.

(** The function has the runs [behaviour] tells, and no other. *)
Lemma runs_setname_iff self descriptor thread thread_name errno tr out :
  runs (pthread_setname_np self descriptor thread thread_name errno) tr out <->
  behaviour self descriptor thread thread_name errno tr out.
Proof.
  unfold pthread_setname_np, behaviour. rewrite runs_ErrnoRestorer_iff.
  destruct thread_name as [name |]; [| apply scope_ret_iff].
  destruct (thread =? 0); [apply scope_ret_iff |].
  cbv zeta.
  destruct (strlen name >=? MAX_TASK_COMM_LEN) eqn:Hlen; [apply scope_ret_iff |].
  destruct (thread =? self).
  - (* our own name *)
    split.
    + intros (errno' & r & Hrun & ->).
      apply runs_libc_bind_iff in Hrun as (tr1 & errno1 & rc & tr2 & H1 & H2 & ->).
      apply runs_syscall_iff in H1 as (answer & -> & Hout).
      exists answer.
      destruct answer as [[] | code]; injection Hout as -> ->; cbn in H2;
        apply runs_Ret_iff in H2 as [-> [= -> ->]]; auto.
    + intros (answer & -> & ->).
      destruct answer as [[] | code].
      * exists errno, 0. split; [| reflexivity].
        apply runs_libc_bind_iff.
        exists [ev_prctl PR_SET_NAME name 0 0 0 (Success tt)], errno, 0, [].
        repeat split; [| now apply runs_Ret_iff].
        apply runs_syscall_iff. now exists (Success tt).
      * exists (Z.pos code), (Z.pos code). split; [| reflexivity].
        apply runs_libc_bind_iff.
        exists [ev_prctl PR_SET_NAME name 0 0 0 (Failure code)], (Z.pos code), (-1), [].
        repeat split; [| now apply runs_Ret_iff].
        apply runs_syscall_iff. now exists (Failure code).
  - (* another thread's name *)
    rewrite snprintf_comm_name by apply to_unsigned_int_range.
    generalize (task_comm_path (to_unsigned_int (kernel_id (descriptor thread)))).
    intros path.
    split.
    + intros (errno' & r & Hrun & ->).
      apply runs_libc_bind_iff in Hrun as (tr1 & errno1 & fd & tr2 & H1 & H2 & ->).
      apply runs_syscall_iff in H1 as (opened & -> & Hout).
      destruct opened as [fd' | code]; injection Hout as -> ->.
      * right.
        destruct (Z.eqb_spec (Z.of_N fd') (-1)) as [Hfd | _]; [lia |].
        apply runs_libc_bind_iff in H2 as (tr3 & errno3 & n & tr4 & H3 & H4 & ->).
        unfold write in H3. rewrite substring_strlen in H3.
        apply runs_retry_iff in H3 as (j & written & Hne & -> & Hout); [| intros a; lia].
        apply runs_libc_bind_iff in H4 as (tr5 & errno5 & c & tr6 & H5 & H6 & ->).
        apply runs_syscall_iff in H5 as (closed & -> & Hout').
        exists fd', j, written, closed. split; [assumption |].
        assert (Hend : tr6 = [] /\ r = write_verdict (strlen name) written closed).
        { destruct written as [n' | code]; injection Hout as -> ->.
          - destruct (Z.ltb_spec (Z.of_N n') 0) as [Hneg | _]; [lia |].
            unfold write_verdict.
            destruct (Z.of_N n' =? strlen name); cbn in H6;
              apply runs_Ret_iff in H6 as [-> [= _ ->]]; auto.
          - change (-1 <? 0) with true in H6. cbv iota in H6.
            apply runs_get_errno_iff in H6 as [-> [= _ ->]].
            destruct closed as [[] | code']; injection Hout' as -> _; auto. }
        destruct Hend as [-> ->]. split; [| reflexivity].
        unfold other_thread_trace. cbn. rewrite <- app_assoc. reflexivity.
      * left. exists code. change (-1 =? -1) with true in H2. cbv iota in H2.
        apply runs_get_errno_iff in H2 as [-> [= _ ->]]. auto.
    + intros [(code & -> & ->) | (fd & j & written & closed & Hne & -> & ->)].
      * exists (Z.pos code), (Z.pos code). split; [| reflexivity].
        apply runs_libc_bind_iff.
        exists [ev_open path O_RDWR (Failure code)], (Z.pos code), (-1), [].
        repeat split; [| now apply runs_get_errno_iff].
        apply runs_syscall_iff. now exists (Failure code).
      * set (errno_w := match j with O => errno | S _ => EINTR end).
        set (out_w := wrapper_outcome Z.of_N errno_w written).
        set (out_c := wrapper_outcome (fun _ : unit => 0) (fst out_w) closed).
        exists (fst out_c), (write_verdict (strlen name) written closed).
        split; [| reflexivity].
        apply runs_libc_bind_iff.
        exists [ev_open path O_RDWR (Success fd)], errno, (Z.of_N fd),
               (repeat (ev_write (Z.of_N fd) (c_str name) (Failure EINTR_code)) j ++
                [ev_write (Z.of_N fd) (c_str name) written; ev_close (Z.of_N fd) closed]).
        split; [apply runs_syscall_iff; now exists (Success fd) |].
        split; [| reflexivity].
        destruct (Z.eqb_spec (Z.of_N fd) (-1)) as [Hfd | _]; [lia |].
        apply runs_libc_bind_iff.
        exists (repeat (ev_write (Z.of_N fd) (c_str name) (Failure EINTR_code)) j ++
                [ev_write (Z.of_N fd) (c_str name) written]),
               (fst out_w), (snd out_w), [ev_close (Z.of_N fd) closed].
        split.
        { unfold write. rewrite substring_strlen.
          apply runs_retry_iff; [intros a; lia |].
          exists j, written. repeat split; trivial.
          symmetry. apply surjective_pairing. }
        split; [| now rewrite <- app_assoc].
        apply runs_libc_bind_iff.
        exists [ev_close (Z.of_N fd) closed], (fst out_c), (snd out_c), [].
        split; [apply runs_syscall_iff; exists closed; split;
                [reflexivity | symmetry; apply surjective_pairing] |].
        split; [| reflexivity].
        subst out_c out_w.
        destruct written as [n' | code]; cbn [wrapper_outcome fst snd].
        { destruct (Z.ltb_spec (Z.of_N n') 0) as [Hneg | _]; [lia |].
          unfold write_verdict.
          destruct (Z.of_N n' =? strlen name); cbn; now apply runs_Ret_iff. }
        { change (-1 <? 0) with true. cbv iota.
          apply runs_get_errno_iff. split; [reflexivity |].
          destruct closed as [[] | code']; reflexivity. }
Qed.

(** The runs of a call for another thread. *)
Lemma runs_other_thread_iff self descriptor thread name errno tr out :
  thread <> 0 -> strlen name < MAX_TASK_COMM_LEN -> thread <> self ->
  runs (pthread_setname_np self descriptor thread (Some name) errno) tr out <->
  let path := task_comm_path (to_unsigned_int (kernel_id (descriptor thread))) in
  (exists code,
      tr = [ev_open path O_RDWR (Failure code)] /\
      out = (errno, Z.pos code)) \/
  (exists fd interruptions written closed,
      written <> Failure EINTR_code /\
      tr = other_thread_trace path fd (c_str name) interruptions written closed /\
      out = (errno, write_verdict (strlen name) written closed)).
Proof.
  intros Hthread Hlen Hself. rewrite runs_setname_iff. unfold behaviour.
  destruct (Z.eqb_spec thread 0) as [| _]; [contradiction |].
  destruct (Z.geb_spec (strlen name) MAX_TASK_COMM_LEN); [lia |].
  destruct (Z.eqb_spec thread self) as [| _]; [contradiction | reflexivity].
Qed.

(** The events of the calls made for another thread. *)
Lemma In_other_thread_trace path fd bytes interruptions written closed ev :
  In ev (other_thread_trace path fd bytes interruptions written closed) ->
  ev = ev_open path O_RDWR (Success fd) \/
  ev = ev_write (Z.of_N fd) bytes (Failure EINTR_code) \/
  ev = ev_write (Z.of_N fd) bytes written \/
  ev = ev_close (Z.of_N fd) closed.
Proof.
  unfold other_thread_trace. intros [<- | Hin]; [auto |].
  apply in_app_or in Hin as [Hin | [<- | [<- | []]]]; auto.
  apply repeat_spec in Hin. auto.
Qed.

(** In a loop of writes, what follows a write depends on its answer:
    the same write after an interruption, the close otherwise. *)
Lemma after_a_write fd bytes written (closed : event) interruptions :
  written <> Failure EINTR_code ->
  is_write closed = false ->
  forall before ev after,
    repeat (ev_write fd bytes (Failure EINTR_code)) interruptions ++
      [ev_write fd bytes written; closed] = before ++ ev :: after ->
    is_write ev = true ->
    (ev = ev_write fd bytes (Failure EINTR_code) /\
     exists answer after', after = ev_write fd bytes answer :: after') \/
    (ev = ev_write fd bytes written /\ after = [closed]).
Proof.
  intros Hne Hclosed. induction interruptions as [| j IH]; intros before ev after Heq Hev.
  - destruct before as [| x [| y [| z before]]]; cbn in Heq.
    + injection Heq as <- <-. right. auto.
    + injection Heq as _ <- _. congruence.
    + injection Heq as _ _ Heq. discriminate.
    + injection Heq as _ _ Heq. discriminate.
  - destruct before as [| x before]; cbn in Heq.
    + injection Heq as <- <-. left. split; [reflexivity |].
      destruct j; cbn; eauto.
    + injection Heq as _ Heq. now apply IH with before.
Qed.

Ltac in_trace H :=
  apply In_other_thread_trace in H as [H | [H | [H | H]]]; try discriminate H.

Ltac in_single H :=
  destruct H as [H | []]; try discriminate H.

(** Whatever the arguments, there is a kernel that lets the call
    return. *)
Lemma some_run self descriptor thread thread_name errno :
  exists tr out,
    runs (pthread_setname_np self descriptor thread thread_name errno) tr out.
Proof.
  assert (Hbeh : exists tr out,
             behaviour self descriptor thread thread_name errno tr out).
  { unfold behaviour. destruct thread_name as [name |]; [| eauto].
    destruct (thread =? 0); [eauto |].
    destruct (strlen name >=? MAX_TASK_COMM_LEN); [eauto |].
    destruct (thread =? self).
    - eexists _, _. now exists (Success tt).
    - eexists _, _. left. now exists 1%positive. }
  destruct Hbeh as (tr & out & Hbeh). exists tr, out. now apply runs_setname_iff.
Qed.

(** ** Runs of the example process, computed on the program itself *)

Lemma renamed_worker_runs :
  runs (Example.setname Example.worker_thread (Some "worker") 7)
       Example.renamed_worker (7, 0).
Proof.
  apply exec_sound with (fuel := 16%nat) (answers := Example.renamed_worker_answers).
  vm_compute. reflexivity.
Qed.

Lemma short_write_runs :
  runs (Example.setname Example.worker_thread (Some "worker") 7)
       Example.short_write (7, EIO).
Proof.
  apply exec_sound with (fuel := 16%nat) (answers := Example.short_write_answers).
  vm_compute. reflexivity.
Qed.

Lemma denied_write_runs :
  runs (Example.setname Example.worker_thread (Some "worker") 7)
       Example.denied_write (7, 13).
Proof.
  apply exec_sound with (fuel := 16%nat) (answers := Example.denied_write_answers).
  vm_compute. reflexivity.
Qed.

(** [errno] is read after [close]: when both the write and the close
    fail, the code of the close comes back. *)
Lemma failed_close_runs :
  runs (Example.setname Example.worker_thread (Some "worker") 7)
       Example.failed_close (7, 9).
Proof.
  apply exec_sound with (fuel := 16%nat) (answers := Example.failed_close_answers).
  vm_compute. reflexivity.
Qed.

Lemma refused_prctl_runs :
  runs (Example.setname Example.main_thread (Some "main") 7)
       Example.refused_prctl (7, 1).
Proof.
  apply exec_sound with (fuel := 16%nat) (answers := Example.refused_prctl_answers).
  vm_compute. reflexivity.
Qed.

End SetnameFacts.

(* ===================================================================== *)
(** * What [pthread_setname_np] does *)
(* ===================================================================== *)

Module SetnameSpec.
Import Libc Pthread Run Behaviour RunFacts LibcFacts StringFacts SetnameFacts.
Local Open Scope list_scope.

Section Claims.

Variable self : pthread_t.
Variable descriptor : pthread_t -> pthread_internal_t.

(** C1.  With a handle that is not null, a name of 16 bytes or more
    (the terminator not counted) gets [ERANGE] and no system call is
    made: nothing is renamed.  A name of fewer than 16 bytes passes the
    check: the call has runs, and each of them starts with the request
    to rename, the [prctl] call or the opening of the comm file. *)
Theorem length_check thread name errno :
  thread <> 0 ->
  (MAX_TASK_COMM_LEN <= strlen name ->
   forall tr out,
     runs (pthread_setname_np self descriptor thread (Some name) errno) tr out <->
     tr = [] /\ out = (errno, ERANGE)) /\
  (strlen name < MAX_TASK_COMM_LEN ->
   (exists tr out,
       runs (pthread_setname_np self descriptor thread (Some name) errno) tr out) /\
   (forall tr out,
       runs (pthread_setname_np self descriptor thread (Some name) errno) tr out ->
       attempts_rename tr)).
Proof.
  intros Hthread.
  assert (Hbeh : forall tr out,
             runs (pthread_setname_np self descriptor thread (Some name) errno) tr out <->
             behaviour self descriptor thread (Some name) errno tr out)
    by (intros; apply runs_setname_iff).
  unfold behaviour in Hbeh.
  destruct (Z.eqb_spec thread 0) as [| _]; [contradiction |].
  split.
  - intros Hlen tr out. rewrite Hbeh.
    destruct (Z.geb_spec (strlen name) MAX_TASK_COMM_LEN); [reflexivity | lia].
  - intros Hlen.
    destruct (Z.geb_spec (strlen name) MAX_TASK_COMM_LEN); [lia |].
    destruct (thread =? self); split.
    + eexists _, _. apply Hbeh. now exists (Success tt).
    + intros tr out Hrun. apply Hbeh in Hrun as (answer & -> & _).
      eexists _, _. split; [reflexivity |]. now left.
    + eexists _, _. apply Hbeh. left. now exists 1%positive.
    + intros tr out Hrun.
      apply Hbeh in Hrun as [(code & -> & _) | (fd & j & w & c & _ & -> & _)];
        eexists _, _; (split; [reflexivity |]); now right.
Qed.

(** C2.  When the handle is 0 or the name is the null pointer, the
    only run of the call makes no system call (no [prctl], no [open], no
    [write]) and returns [EINVAL]. *)
Theorem null_arguments_are_EINVAL thread thread_name errno :
  thread = 0 \/ thread_name = None ->
  forall tr out,
    runs (pthread_setname_np self descriptor thread thread_name errno) tr out <->
    tr = [] /\ out = (errno, EINVAL).
Proof.
  intros Hinv tr out. rewrite runs_setname_iff. unfold behaviour.
  destruct thread_name as [name |]; [| reflexivity].
  destruct Hinv as [-> | Hnull]; [reflexivity | discriminate].
Qed.

(** C3.  When the arguments pass the checks and the handle is the one
    of the calling thread, the runs of the call are these: the single
    call [prctl(PR_SET_NAME, name, 0, 0, 0)], nothing being opened, and
    the value 0 when [prctl] succeeds, its [errno] when it fails. *)
Theorem own_name_by_prctl thread name errno :
  thread <> 0 -> strlen name < MAX_TASK_COMM_LEN -> thread = self ->
  forall tr out,
    runs (pthread_setname_np self descriptor thread (Some name) errno) tr out <->
    exists answer,
      tr = [ev_prctl PR_SET_NAME name 0 0 0 answer] /\
      out = (errno, match answer with
                    | Success _ => 0
                    | Failure code => Z.pos code
                    end).
Proof.
  intros Hthread Hlen Hself tr out. rewrite runs_setname_iff. unfold behaviour.
  destruct (Z.eqb_spec thread 0) as [| _]; [contradiction |].
  destruct (Z.geb_spec (strlen name) MAX_TASK_COMM_LEN); [lia |].
  destruct (Z.eqb_spec thread self) as [_ |]; [reflexivity | contradiction].
Qed.

(** C4.  Renaming another thread: in every run where a write is
    answered with a number of bytes that is not the length of the name,
    the call returns [EIO]; and whatever the descriptor, the number of
    interruptions before and the answer to [close], such a run exists. *)
Theorem short_write_is_EIO thread name errno :
  thread <> 0 -> strlen name < MAX_TASK_COMM_LEN -> thread <> self ->
  (forall tr out fd bytes n,
      runs (pthread_setname_np self descriptor thread (Some name) errno) tr out ->
      In (ev_write fd bytes (Success n)) tr ->
      Z.of_N n <> strlen name ->
      snd out = EIO) /\
  (forall fd interruptions n closed,
      Z.of_N n <> strlen name ->
      runs (pthread_setname_np self descriptor thread (Some name) errno)
           (other_thread_trace
              (task_comm_path (to_unsigned_int (kernel_id (descriptor thread))))
              fd (c_str name) interruptions (Success n) closed)
           (errno, EIO)).
Proof.
  intros Hthread Hlen Hself. split.
  - intros tr out fd bytes n Hrun Hin Hn.
    apply runs_other_thread_iff in Hrun as
        [(code & -> & _) | (fd' & j & written & closed & Hne & -> & ->)]; trivial.
    + destruct Hin as [Heq | []]. discriminate.
    + apply In_other_thread_trace in Hin as [Heq | [Heq | [Heq | Heq]]];
        try discriminate.
      injection Heq as _ _ <-. cbn.
      destruct (Z.eqb_spec (Z.of_N n) (strlen name)); [contradiction | reflexivity].
  - intros fd j n closed Hn. apply runs_other_thread_iff; trivial. right.
    exists fd, j, (Success n), closed. repeat split; [discriminate |].
    cbn. destruct (Z.eqb_spec (Z.of_N n) (strlen name)); [contradiction | reflexivity].
Qed.

(** C5, as amended.  Every run ends with a plain integer: 0, [EINVAL],
    [ERANGE], [EIO], or the [errno] of a system call of the run that
    failed.  It is not 0 exactly when one of the listed failure
    conditions occurred or, renaming the calling thread, [prctl] failed.
    A failed [prctl] and a failed [open] give their own [errno]; so does
    a failed write when the [close] after it succeeds. *)
Theorem return_value_tells_failure thread thread_name errno tr out :
  runs (pthread_setname_np self descriptor thread thread_name errno) tr out ->
  plain_error_code tr (snd out) /\
  (snd out <> 0 <-> listed_failure thread thread_name tr \/ prctl_failed tr) /\
  (forall option arg2 arg3 arg4 arg5 code,
      In (ev_prctl option arg2 arg3 arg4 arg5 (Failure code)) tr ->
      snd out = Z.pos code) /\
  (forall pathname flags code,
      In (ev_open pathname flags (Failure code)) tr -> snd out = Z.pos code) /\
  (forall fd bytes code fd',
      In (ev_write fd bytes (Failure code)) tr -> code <> EINTR_code ->
      In (ev_close fd' (Success tt)) tr ->
      snd out = Z.pos code).
Proof.
  intros Hrun. apply runs_setname_iff in Hrun. unfold behaviour in Hrun.
  unfold plain_error_code, listed_failure, invalid_arguments, name_too_long,
    open_failed, write_failed, partial_write, prctl_failed, errno_of_failed_call.
  destruct thread_name as [name |].
  2: { destruct Hrun as [-> ->]. cbn [snd In].
       split; [auto |]. split; [| repeat split; intros; contradiction].
       split; [auto | discriminate]. }
  destruct (Z.eqb_spec thread 0) as [Hzero | Hthread].
  { destruct Hrun as [-> ->]. cbn [snd In].
    split; [auto |]. split; [| repeat split; intros; contradiction].
    split; [auto | discriminate]. }
  destruct (Z.geb_spec (strlen name) MAX_TASK_COMM_LEN) as [Hlong | Hlen].
  { destruct Hrun as [-> ->]. cbn [snd In].
    split; [auto |]. split; [| repeat split; intros; contradiction].
    split; [| discriminate].
    intros _. left. right. left. exists name. split; [reflexivity | lia]. }
  assert (Hshort : ~ exists name', Some name = Some name' /\ MAX_TASK_COMM_LEN <= strlen name').
  { intros (name' & [= <-] & Hle). lia. }
  destruct (thread =? self).
  - (* our own name *)
    destruct Hrun as (answer & -> & ->). cbn [snd].
    destruct answer as [[] | code].
    + split; [auto |]. split; [split; [congruence |] |].
      * intros [[[Hz | Hn] | [Hl | [Ho | [Hw | Hp]]]] | Hp].
        -- contradiction.
        -- discriminate.
        -- contradiction.
        -- destruct Ho as (p & f & c & Hin). in_single Hin.
        -- destruct Hw as (fd & b & c & Hin & _). in_single Hin.
        -- destruct Hp as (n & fd & b & k & _ & Hin & _). in_single Hin.
        -- destruct Hp as (o & a2 & a3 & a4 & a5 & c & Hin). in_single Hin.
      * repeat split; intros; match goal with H : In _ [_] |- _ => in_single H end.
    + split.
      { right. right. right. right.
        exists (ev_prctl PR_SET_NAME name 0 0 0 (Failure code)), code.
        repeat split. now left. }
      split; [split |].
      * intros _. right. exists PR_SET_NAME, name, 0, 0, 0, code. now left.
      * intros _. discriminate.
      * repeat split; intros; match goal with H : In _ [_] |- _ => in_single H end.
        now injection H as _ _ _ _ _ ->.
  - (* another thread's name *)
    cbv zeta in Hrun.
    generalize dependent (task_comm_path (to_unsigned_int (kernel_id (descriptor thread)))).
    intros path [(code & -> & ->) | (fd & j & written & closed & Hne & -> & ->)]; cbn [snd].
    + split.
      { right. right. right. right.
        exists (ev_open path O_RDWR (Failure code)), code. repeat split. now left. }
      split; [split |].
      * intros _. left. right. right. left. exists path, O_RDWR, code. now left.
      * intros _. discriminate.
      * repeat split; intros; match goal with H : In _ [_] |- _ => in_single H end.
        now injection H as _ _ ->.
    + assert (Hprctl : forall o a2 a3 a4 a5 c,
                 ~ In (ev_prctl o a2 a3 a4 a5 (Failure c))
                      (other_thread_trace path fd (c_str name) j written closed)).
      { intros o a2 a3 a4 a5 c Hin. in_trace Hin. }
      assert (Hopen : forall p f c,
                 ~ In (ev_open p f (Failure c))
                      (other_thread_trace path fd (c_str name) j written closed)).
      { intros p f c Hin. in_trace Hin. }
      assert (Hwrite : forall fd' b c,
                 In (ev_write fd' b (Failure c))
                    (other_thread_trace path fd (c_str name) j written closed) ->
                 c <> EINTR_code -> written = Failure c).
      { intros fd' b c Hin Hc. in_trace Hin.
        - injection Hin as _ _ ->. contradiction.
        - now injection Hin as _ _ <-. }
      assert (Hpart : forall fd' b n,
                 In (ev_write fd' b (Success n))
                    (other_thread_trace path fd (c_str name) j written closed) ->
                 written = Success n).
      { intros fd' b n Hin. in_trace Hin. now injection Hin as _ _ <-. }
      assert (Hlast : In (ev_write (Z.of_N fd) (c_str name) written)
                         (other_thread_trace path fd (c_str name) j written closed)).
      { unfold other_thread_trace. right. apply in_or_app. right. now left. }
      assert (Hclose : forall fd' c,
                 In (ev_close fd' c)
                    (other_thread_trace path fd (c_str name) j written closed) ->
                 closed = c).
      { intros fd' c Hin. in_trace Hin. now injection Hin as _ <-. }
      assert (Hcl : In (ev_close (Z.of_N fd) closed)
                       (other_thread_trace path fd (c_str name) j written closed)).
      { unfold other_thread_trace. right. apply in_or_app. right. right. now left. }
      split; [| split; [| repeat split]].
      * destruct written as [n | code]; cbn [write_verdict].
        -- destruct (Z.of_N n =? strlen name); auto.
        -- right. right. right. right. destruct closed as [[] | code'].
           ++ exists (ev_write (Z.of_N fd) (c_str name) (Failure code)), code. auto.
           ++ exists (ev_close (Z.of_N fd) (Failure code')), code'. auto.
      * destruct written as [n | code]; cbn [write_verdict].
        -- destruct (Z.eqb_spec (Z.of_N n) (strlen name)) as [Heq | Hneq]; split.
           ++ congruence.
           ++ intros [[[Hz | Hn] | [Hl | [Ho | [Hw | Hp]]]] | Hp]; exfalso.
              ** contradiction.
              ** discriminate.
              ** contradiction.
              ** destruct Ho as (p & f & c & Hin). now apply Hopen in Hin.
              ** destruct Hw as (fd' & b & c & Hin & Hc).
                 apply Hwrite in Hin; [discriminate | assumption].
              ** destruct Hp as (name' & fd' & b & k & [= <-] & Hin & Hk).
                 apply Hpart in Hin. injection Hin as <-. contradiction.
              ** destruct Hp as (o & a2 & a3 & a4 & a5 & c & Hin). now apply Hprctl in Hin.
           ++ intros _. left. right. right. right. right.
              exists name, (Z.of_N fd), (c_str name), n. auto.
           ++ intros _. discriminate.
        -- split.
           ++ intros _. left. right. right. right. left.
              exists (Z.of_N fd), (c_str name), code. split; [assumption | congruence].
           ++ intros _. destruct closed as [[] | code']; discriminate.
      * intros o a2 a3 a4 a5 c Hin. now apply Hprctl in Hin.
      * intros p f c Hin. now apply Hopen in Hin.
      * intros fd1 b c fd2 Hin Hc Hin'.
        apply Hwrite in Hin; [| assumption]. apply Hclose in Hin'. subst. reflexivity.
Qed.

(** C6.  Renaming another thread: in every run, a write that was
    interrupted (answer [EINTR]) is followed at once by the same write,
    and a write with any other answer is followed by no write; nothing
    else is tried again (one [open] and one [close] at most, no
    [prctl]).  The interrupted write is retried every time: for each
    number of interruptions in a row there is a run with that many
    retries. *)
Theorem write_retried_when_interrupted thread name errno :
  thread <> 0 -> strlen name < MAX_TASK_COMM_LEN -> thread <> self ->
  (forall tr out,
      runs (pthread_setname_np self descriptor thread (Some name) errno) tr out ->
      (forall before fd bytes answer after,
          tr = before ++ ev_write fd bytes answer :: after ->
          (answer = Failure EINTR_code ->
           exists answer' after', after = ev_write fd bytes answer' :: after') /\
          (answer <> Failure EINTR_code ->
           forall ev, In ev after -> is_write ev = false)) /\
      (List.length (filter is_open tr) <= 1)%nat /\
      (List.length (filter is_close tr) <= 1)%nat /\
      filter is_prctl tr = []) /\
  (forall fd interruptions written closed,
      written <> Failure EINTR_code ->
      exists out,
        runs (pthread_setname_np self descriptor thread (Some name) errno)
             (other_thread_trace
                (task_comm_path (to_unsigned_int (kernel_id (descriptor thread))))
                fd (c_str name) interruptions written closed)
             out).
Proof.
  intros Hthread Hlen Hself. split.
  - intros tr out Hrun.
    apply runs_other_thread_iff in Hrun as
        [(code & -> & _) | (fd' & j & written & closed & Hne & -> & _)]; trivial.
    + split; [| cbn; repeat split; lia].
      intros [| x [| y before]] fd bytes answer after Heq; cbn in Heq; discriminate.
    + unfold other_thread_trace. split.
      * intros before fd bytes answer after Heq.
        destruct before as [| x before]; cbn in Heq; [discriminate |].
        injection Heq as _ Heq.
        apply after_a_write in Heq as [[[= -> -> ->] Hnext] | [[= -> -> ->] ->]];
          trivial.
        -- split; [auto | congruence].
        -- split; [contradiction |].
           intros _ ev [<- | []]. reflexivity.
      * cbn [filter is_open is_close is_prctl].
        rewrite !filter_app. cbn.
        assert (Hw : forall f, f (ev_write (Z.of_N fd') (c_str name) (Failure EINTR_code)) = false ->
                               filter f (repeat (ev_write (Z.of_N fd') (c_str name)
                                                          (Failure EINTR_code)) j) = []).
        { intros f Hf. induction j as [| j IH]; cbn [repeat filter]; [reflexivity |]. now rewrite Hf. }
        rewrite !Hw by reflexivity. cbn. repeat split; lia.
  - intros fd j written closed Hne. eexists.
    apply runs_other_thread_iff; trivial. right.
    exists fd, j, written, closed. repeat split. assumption.
Qed.

(** C7.  Renaming another thread: every run opens one file, for
    reading and writing, and it is [/proc/self/task/<id>/comm], where
    <id> is the kernel id of the target thread printed as an unsigned
    decimal number (the buffer cuts nothing of it); every write goes to
    the descriptor [open] gave and carries the [strlen(name)] bytes of
    the name, without the terminator. *)
Theorem comm_file_and_name_bytes thread name errno tr out :
  thread <> 0 -> strlen name < MAX_TASK_COMM_LEN -> thread <> self ->
  runs (pthread_setname_np self descriptor thread (Some name) errno) tr out ->
  exists opened rest,
    tr = ev_open (task_comm_path (to_unsigned_int (kernel_id (descriptor thread))))
                 O_RDWR opened :: rest /\
    (forall ev, In ev rest -> is_open ev = false) /\
    (forall fd bytes answer,
        In (ev_write fd bytes answer) rest ->
        opened = Success (Z.to_N fd) /\ 0 <= fd /\
        bytes = c_str name /\
        Z.of_nat (String.length bytes) = strlen name).
Proof.
  intros Hthread Hlen Hself Hrun.
  apply runs_other_thread_iff in Hrun as
      [(code & -> & _) | (fd' & j & written & closed & Hne & -> & _)]; trivial.
  - eexists _, []. split; [reflexivity |]. split; intros; contradiction.
  - unfold other_thread_trace. eexists _, _. split; [reflexivity |].
    assert (Hin : forall ev,
               In ev (repeat (ev_write (Z.of_N fd') (c_str name) (Failure EINTR_code)) j ++
                      [ev_write (Z.of_N fd') (c_str name) written;
                       ev_close (Z.of_N fd') closed]) ->
               ev = ev_write (Z.of_N fd') (c_str name) (Failure EINTR_code) \/
               ev = ev_write (Z.of_N fd') (c_str name) written \/
               ev = ev_close (Z.of_N fd') closed).
    { intros ev Hev. apply in_app_or in Hev as [Hev | [<- | [<- | []]]]; auto.
      apply repeat_spec in Hev. auto. }
    split.
    + intros ev Hev. apply Hin in Hev as [-> | [-> | ->]]; reflexivity.
    + intros fd bytes answer Hev.
      apply Hin in Hev as [Heq | [Heq | Heq]]; try discriminate;
        injection Heq as -> -> _; rewrite N2Z.id, <- strlen_c_str;
        repeat split; lia.
Qed.

(** C8.  Whatever the arguments and the answers of the kernel, when
    the call returns, [errno] has the value it had when the call was
    made. *)
Theorem errno_is_restored thread thread_name errno tr out :
  runs (pthread_setname_np self descriptor thread thread_name errno) tr out ->
  fst out = errno.
Proof.
  unfold pthread_setname_np. intros Hrun.
  apply runs_ErrnoRestorer_iff in Hrun as (errno' & r & _ & ->). reflexivity.
Qed.

(** C9.  The empty name is not rejected: it passes the null check
    and the length check (every run starts with the request to rename);
    renaming oneself gives 0 when [prctl] succeeds; renaming another
    thread, a write of no byte that is answered 0 counts as complete and
    the call gives 0. *)
Theorem empty_name_is_accepted thread errno :
  thread <> 0 ->
  (thread = self ->
   runs (pthread_setname_np self descriptor thread (Some "") errno)
        [ev_prctl PR_SET_NAME "" 0 0 0 (Success tt)] (errno, 0)) /\
  (thread <> self ->
   forall fd interruptions closed,
     runs (pthread_setname_np self descriptor thread (Some "") errno)
          (other_thread_trace
             (task_comm_path (to_unsigned_int (kernel_id (descriptor thread))))
             fd "" interruptions (Success 0%N) closed)
          (errno, 0)) /\
  (forall tr out,
      runs (pthread_setname_np self descriptor thread (Some "") errno) tr out ->
      attempts_rename tr).
Proof.
  intros Hthread.
  assert (Hbeh : forall tr out,
             runs (pthread_setname_np self descriptor thread (Some "") errno) tr out <->
             behaviour self descriptor thread (Some "") errno tr out)
    by (intros; apply runs_setname_iff).
  unfold behaviour in Hbeh. cbn [strlen c_str] in Hbeh.
  change (0 >=? MAX_TASK_COMM_LEN) with false in Hbeh.
  destruct (Z.eqb_spec thread 0) as [| _]; [contradiction |].
  destruct (Z.eqb_spec thread self) as [Heq | Hne]; repeat split; intros; try contradiction.
  - apply Hbeh. now exists (Success tt).
  - apply Hbeh in H as (answer & -> & _). eexists _, _. split; [reflexivity |]. now left.
  - apply Hbeh. right. exists fd, interruptions, (Success 0%N), closed.
    repeat split. discriminate.
  - apply Hbeh in H as [(code & -> & _) | (fd & j & w & c & _ & -> & _)];
      eexists _, _; (split; [reflexivity |]); now right.
Qed.

End Claims.

(** C5, as stated, fails when the calling thread renames itself and
    [prctl] is refused: the call returns [EPERM], which is not 0, and
    none of the listed failure conditions holds. *)
Lemma listed_failures_miss_prctl :
  ~ (forall tr out,
        runs (Example.setname Example.main_thread (Some "main") 7) tr out ->
        plain_error_code tr (snd out) /\
        (snd out <> 0 <-> listed_failure Example.main_thread (Some "main") tr)).
Proof.
  intros Hclaim.
  destruct (Hclaim _ _ refused_prctl_runs) as [_ [Hlisted _]].
  destruct Hlisted as [[Hz | Hn] | [Hl | [Ho | [Hw | Hp]]]]; [discriminate | | | | | |].
  - discriminate.
  - discriminate.
  - destruct Hl as (name' & [= <-] & Hle). vm_compute in Hle. now apply Hle.
  - destruct Ho as (p & f & c & Hin). in_single Hin.
  - destruct Hw as (fd & b & c & Hin & _). in_single Hin.
  - destruct Hp as (n & fd & b & k & _ & Hin & _). in_single Hin.
Qed.

(** ** The theorems at work on the example process *)

Lemma length_check_witness :
  (forall tr out,
      runs (Example.setname Example.worker_thread (Some "0123456789abcdef") 7) tr out <->
      tr = [] /\ out = (7, ERANGE)) /\
  (exists tr out,
      runs (Example.setname Example.worker_thread (Some "worker") 7) tr out) /\
  (forall tr out,
      runs (Example.setname Example.worker_thread (Some "worker") 7) tr out ->
      attempts_rename tr).
Proof.
  assert (Hthread : Example.worker_thread <> 0) by discriminate.
  split.
  - apply (proj1 (@length_check Example.main_thread Example.descriptor
                    Example.worker_thread "0123456789abcdef" 7 Hthread)).
    vm_compute. discriminate.
  - apply (proj2 (@length_check Example.main_thread Example.descriptor
                    Example.worker_thread "worker" 7 Hthread)).
    reflexivity.
Defined.

Lemma null_arguments_are_EINVAL_witness :
  (forall tr out,
      runs (Example.setname 0 (Some "worker") 7) tr out <->
      tr = [] /\ out = (7, EINVAL)) /\
  (forall tr out,
      runs (Example.setname Example.worker_thread None 7) tr out <->
      tr = [] /\ out = (7, EINVAL)).
Proof.
  split.
  - apply (@null_arguments_are_EINVAL Example.main_thread Example.descriptor
             0 (Some "worker") 7).
    left. reflexivity.
  - apply (@null_arguments_are_EINVAL Example.main_thread Example.descriptor
             Example.worker_thread None 7).
    right. reflexivity.
Defined.

Lemma own_name_by_prctl_witness :
  Example.main_thread <> 0 /\
  strlen "main" < MAX_TASK_COMM_LEN /\
  (forall tr out,
      runs (Example.setname Example.main_thread (Some "main") 7) tr out <->
      exists answer,
        tr = [ev_prctl PR_SET_NAME "main" 0 0 0 answer] /\
        out = (7, match answer with
                  | Success _ => 0
                  | Failure code => Z.pos code
                  end)).
Proof.
  assert (Hthread : Example.main_thread <> 0) by discriminate.
  assert (Hlen : strlen "main" < MAX_TASK_COMM_LEN) by reflexivity.
  split; [exact Hthread |]. split; [exact Hlen |].
  apply (@own_name_by_prctl Example.main_thread Example.descriptor
           Example.main_thread "main" 7 Hthread Hlen).
  reflexivity.
Defined.

Lemma short_write_is_EIO_witness :
  runs (Example.setname Example.worker_thread (Some "worker") 7)
       Example.short_write (7, EIO) /\
  snd (7, EIO) = EIO.
Proof.
  assert (Hthread : Example.worker_thread <> 0) by discriminate.
  assert (Hlen : strlen "worker" < MAX_TASK_COMM_LEN) by reflexivity.
  assert (Hother : Example.worker_thread <> Example.main_thread) by discriminate.
  destruct (@short_write_is_EIO Example.main_thread Example.descriptor
              Example.worker_thread "worker" 7 Hthread Hlen Hother)
    as [Hevery Hsome].
  assert (Hshort : Z.of_N 4 <> strlen "worker") by discriminate.
  assert (Hrun : runs (Example.setname Example.worker_thread (Some "worker") 7)
                      Example.short_write (7, EIO))
    by exact (Hsome 3%N 0%nat 4%N (Success tt) Hshort).
  split; [exact Hrun |].
  apply (Hevery Example.short_write (7, EIO) 3 "worker" 4%N Hrun);
    [| exact Hshort].
  right. left. reflexivity.
Defined.

Lemma return_value_tells_failure_witness :
  runs (Example.setname Example.main_thread (Some "main") 7)
       Example.refused_prctl (7, 1) /\
  plain_error_code Example.refused_prctl 1 /\
  (1 <> 0 <->
   listed_failure Example.main_thread (Some "main") Example.refused_prctl \/
   prctl_failed Example.refused_prctl).
Proof.
  split; [exact refused_prctl_runs |].
  destruct (@return_value_tells_failure Example.main_thread Example.descriptor
              Example.main_thread (Some "main") 7 Example.refused_prctl (7, 1)
              refused_prctl_runs) as [Hcode [Hnonzero _]].
  split; [exact Hcode | exact Hnonzero].
Defined.

Lemma write_retried_when_interrupted_witness :
  Example.worker_thread <> 0 /\
  strlen "worker" < MAX_TASK_COMM_LEN /\
  Example.worker_thread <> Example.main_thread /\
  (exists out,
      runs (Example.setname Example.worker_thread (Some "worker") 7)
           (other_thread_trace Example.worker_comm 3 "worker" 2
                               (Success 6%N) (Success tt)) out) /\
  (forall before fd bytes answer after,
      Example.renamed_worker = before ++ ev_write fd bytes answer :: after ->
      (answer = Failure EINTR_code ->
       exists answer' after', after = ev_write fd bytes answer' :: after') /\
      (answer <> Failure EINTR_code ->
       forall ev, In ev after -> is_write ev = false)).
Proof.
  assert (Hthread : Example.worker_thread <> 0) by discriminate.
  assert (Hlen : strlen "worker" < MAX_TASK_COMM_LEN) by reflexivity.
  assert (Hother : Example.worker_thread <> Example.main_thread) by discriminate.
  destruct (@write_retried_when_interrupted Example.main_thread Example.descriptor
              Example.worker_thread "worker" 7 Hthread Hlen Hother)
    as [Hevery Hsome].
  split; [exact Hthread |]. split; [exact Hlen |]. split; [exact Hother |].
  split.
  - apply (Hsome 3%N 2%nat (Success 6%N) (Success tt)). discriminate.
  - exact (proj1 (Hevery Example.renamed_worker (7, 0) renamed_worker_runs)).
Defined.

Lemma comm_file_and_name_bytes_witness :
  runs (Example.setname Example.worker_thread (Some "worker") 7)
       Example.renamed_worker (7, 0) /\
  exists opened rest,
    Example.renamed_worker =
      ev_open "/proc/self/task/1001/comm" O_RDWR opened :: rest /\
    (forall ev, In ev rest -> is_open ev = false) /\
    (forall fd bytes answer,
        In (ev_write fd bytes answer) rest ->
        opened = Success (Z.to_N fd) /\ 0 <= fd /\
        bytes = "worker"%string /\
        Z.of_nat (String.length bytes) = 6).
Proof.
  split; [exact renamed_worker_runs |].
  apply (@comm_file_and_name_bytes Example.main_thread Example.descriptor
           Example.worker_thread "worker" 7 Example.renamed_worker (7, 0)).
  - discriminate.
  - reflexivity.
  - discriminate.
  - exact renamed_worker_runs.
Defined.

Lemma errno_is_restored_witness :
  runs (Example.setname Example.worker_thread (Some "worker") 7)
       Example.denied_write (7, 13) /\
  fst (7, 13) = 7.
Proof.
  split; [exact denied_write_runs |].
  exact (@errno_is_restored Example.main_thread Example.descriptor
           Example.worker_thread (Some "worker") 7 Example.denied_write (7, 13)
           denied_write_runs).
Defined.

Lemma empty_name_is_accepted_witness :
  runs (Example.setname Example.main_thread (Some "") 7)
       [ev_prctl PR_SET_NAME "" 0 0 0 (Success tt)] (7, 0) /\
  runs (Example.setname Example.worker_thread (Some "") 7)
       Example.unnamed_worker (7, 0).
Proof.
  assert (Hmain : Example.main_thread <> 0) by discriminate.
  assert (Hworker : Example.worker_thread <> 0) by discriminate.
  split.
  - apply (proj1 (@empty_name_is_accepted Example.main_thread Example.descriptor
                    Example.main_thread 7 Hmain)).
    reflexivity.
  - apply (proj1 (proj2 (@empty_name_is_accepted Example.main_thread Example.descriptor
                           Example.worker_thread 7 Hworker))).
    discriminate.
Defined.

End SetnameSpec.
(* ===================================================================== *)
(** * More about the [ioprio] macros *)
(* ===================================================================== *)

Module IoprioMore.
Import Ioprio IoprioFacts.

(** A disjunction of two [int]s that are not negative is one too. *)
Lemma lor_int_bounds (a b : Z) :
  0 <= a < 2 ^ 31 -> 0 <= b < 2 ^ 31 -> 0 <= Z.lor a b < 2 ^ 31.
Proof.
  intros Ha Hb. split; [apply Z.lor_nonneg; lia |].
  destruct (Z.eq_dec (Z.lor a b) 0) as [-> | Hnz]; [lia |].
  assert (Hpos : 0 < Z.lor a b) by (pose proof (proj2 (Z.lor_nonneg a b)); lia).
  apply Z.log2_lt_pow2; [assumption |].
  rewrite Z.log2_lor by lia.
  apply Z.max_lub_lt.
  - destruct (Z.eq_dec a 0) as [-> | Ha0]; [cbn; lia |]. apply Z.log2_lt_pow2; lia.
  - destruct (Z.eq_dec b 0) as [-> | Hb0]; [cbn; lia |]. apply Z.log2_lt_pow2; lia.
Qed.

(** X7.  Taking a priority value apart and packing it again gives it
    back: for every [int] [mask] that is not negative,
    [IOPRIO_PRIO_VALUE(IOPRIO_PRIO_CLASS(mask), IOPRIO_PRIO_DATA(mask))]
    is [mask]. *)
Theorem ioprio_mask_round_trip (ulong_bits mask : Z) :
  32 <= ulong_bits -> 0 <= mask < 2 ^ 31 ->
  IOPRIO_PRIO_VALUE (IOPRIO_PRIO_CLASS mask) (IOPRIO_PRIO_DATA ulong_bits mask) = mask.
Proof.
  intros Hw Hmask.
  assert (Hpow : 2 ^ 32 <= 2 ^ ulong_bits) by (apply Z.pow_le_mono_r; lia).
  assert (Hclass : IOPRIO_PRIO_CLASS mask = mask / 2 ^ 13).
  { unfold IOPRIO_PRIO_CLASS, IOPRIO_CLASS_SHIFT. apply Z.shiftr_div_pow2. lia. }
  assert (Hdata : IOPRIO_PRIO_DATA ulong_bits mask = mask mod 2 ^ 13).
  { unfold IOPRIO_PRIO_DATA. rewrite mask_is_ones by assumption.
    rewrite to_ulong_small by lia. unfold IOPRIO_CLASS_SHIFT. apply Z.land_ones. lia. }
  rewrite Hclass, Hdata.
  pose proof (Z.div_mod mask (2 ^ 13)) as Hdm.
  pose proof (Z.mod_pos_bound mask (2 ^ 13)) as Hmod.
  assert (Hdiv : 0 <= mask / 2 ^ 13 < 2 ^ 18).
  { split; [apply Z.div_pos; lia |]. apply Z.div_lt_upper_bound; lia. }
  rewrite value_as_sum; [lia | exact Hdiv |].
  unfold data_in_range, IOPRIO_CLASS_SHIFT. lia.
Qed.

(** X8.  [IOPRIO_PRIO_DATA] of any [int] lies between 0 and
    [IOPRIO_PRIO_MASK], which is [2 ^ 13 - 1]; and a value of
    [IOPRIO_BITS] bits has a class below [2 ^ 3]. *)
Theorem ioprio_field_bounds (ulong_bits mask : Z) :
  32 <= ulong_bits -> - 2 ^ 31 <= mask < 2 ^ 31 ->
  0 <= IOPRIO_PRIO_DATA ulong_bits mask <= IOPRIO_PRIO_MASK ulong_bits /\
  IOPRIO_PRIO_MASK ulong_bits = 2 ^ IOPRIO_CLASS_SHIFT - 1 /\
  (0 <= mask < 2 ^ IOPRIO_BITS ->
   0 <= IOPRIO_PRIO_CLASS mask < 2 ^ (IOPRIO_BITS - IOPRIO_CLASS_SHIFT)).
Proof.
  intros Hw Hmask.
  assert (Hones : IOPRIO_PRIO_MASK ulong_bits = 2 ^ IOPRIO_CLASS_SHIFT - 1).
  { rewrite mask_is_ones by assumption. unfold IOPRIO_CLASS_SHIFT. reflexivity. }
  split; [| split; [exact Hones |]].
  - unfold IOPRIO_PRIO_DATA. rewrite Hones.
    change (2 ^ IOPRIO_CLASS_SHIFT - 1) with (Z.ones 13).
    rewrite Z.land_ones by lia.
    pose proof (Z.mod_pos_bound (to_ulong ulong_bits mask) (2 ^ 13)).
    change (Z.ones 13) with (2 ^ 13 - 1). lia.
  - intros H16. unfold IOPRIO_PRIO_CLASS, IOPRIO_BITS, IOPRIO_CLASS_SHIFT in *.
    rewrite Z.shiftr_div_pow2 by lia. split; [apply Z.div_pos; lia |].
    apply Z.div_lt_upper_bound; lia.
Qed.

(** X9.  [ioprio_valid] rejects exactly the values from 0 to
    [2 ^ 13 - 1], those of class [IOPRIO_CLASS_NONE]; a negative value
    counts as valid. *)
Theorem ioprio_valid_iff (mask : Z) :
  ioprio_valid mask = false <-> 0 <= mask < 2 ^ IOPRIO_CLASS_SHIFT.
Proof.
  unfold ioprio_valid, IOPRIO_PRIO_CLASS, IOPRIO_CLASS_NONE, IOPRIO_CLASS_SHIFT.
  rewrite negb_false_iff, Z.eqb_eq, Z.shiftr_div_pow2 by lia. cbn [class_value].
  split.
  - intros Hdiv. pose proof (Z.div_mod mask (2 ^ 13)).
    pose proof (Z.mod_pos_bound mask (2 ^ 13)). lia.
  - intros Hsmall. apply Z.div_small. lia.
Qed.

(** X10.  Packed values compare as their classes do, and as their data
    when the classes are the same. *)
Theorem ioprio_value_order (c d c' d' : Z) :
  class_in_range c -> data_in_range d -> class_in_range c' -> data_in_range d' ->
  (IOPRIO_PRIO_VALUE c d < IOPRIO_PRIO_VALUE c' d' <-> c < c' \/ (c = c' /\ d < d')).
Proof.
  intros Hc Hd Hc' Hd'. rewrite !value_as_sum by assumption.
  unfold class_in_range, data_in_range, IOPRIO_CLASS_SHIFT in *. lia.
Qed.

(** X11.  [IOPRIO_PRIO_VALUE] does not mask its data: the bits of [d]
    from bit 13 on go into the class, which is read back as
    [c | (d >> 13)], and the data read back is [d] modulo [2 ^ 13]. *)
Theorem ioprio_data_not_masked (ulong_bits c d : Z) :
  32 <= ulong_bits -> class_in_range c -> 0 <= d < 2 ^ 31 ->
  IOPRIO_PRIO_CLASS (IOPRIO_PRIO_VALUE c d) = Z.lor c (Z.shiftr d IOPRIO_CLASS_SHIFT) /\
  IOPRIO_PRIO_DATA ulong_bits (IOPRIO_PRIO_VALUE c d) = d mod 2 ^ IOPRIO_CLASS_SHIFT.
Proof.
  intros Hw Hc Hd.
  assert (Hpow : 2 ^ 32 <= 2 ^ ulong_bits) by (apply Z.pow_le_mono_r; lia).
  pose proof (shifted_class_bounds Hc) as Hs.
  assert (Hval : IOPRIO_PRIO_VALUE c d = Z.lor (Z.shiftl c IOPRIO_CLASS_SHIFT) d).
  { unfold IOPRIO_PRIO_VALUE.
    rewrite (@to_int_small (Z.shiftl c IOPRIO_CLASS_SHIFT)) by lia.
    apply to_int_small. pose proof (lor_int_bounds Hs Hd). lia. }
  pose proof (lor_int_bounds Hs Hd) as Hb.
  rewrite Hval. unfold IOPRIO_CLASS_SHIFT in *. split.
  - unfold IOPRIO_PRIO_CLASS, IOPRIO_CLASS_SHIFT.
    rewrite Z.shiftr_lor, Z.shiftr_shiftl_l by lia.
    replace (13 - 13) with 0 by lia. now rewrite Z.shiftl_0_r.
  - unfold IOPRIO_PRIO_DATA. rewrite mask_is_ones by assumption.
    rewrite to_ulong_small by lia. unfold IOPRIO_CLASS_SHIFT.
    rewrite !Z.land_ones by lia. rewrite <- !Z.land_ones by lia.
    rewrite Z.land_lor_distr_l.
    assert (Hzero : Z.land (Z.shiftl c 13) (Z.ones 13) = 0).
    { rewrite Z.land_ones by lia. rewrite Z.shiftl_mul_pow2 by lia.
      apply Z.mod_mul. lia. }
    rewrite Hzero. apply Z.lor_0_l.
Qed.

Lemma ioprio_mask_round_trip_witness :
  0 <= 16388 < 2 ^ 31 /\
  IOPRIO_PRIO_VALUE (IOPRIO_PRIO_CLASS 16388) (IOPRIO_PRIO_DATA 64 16388) = 16388.
Proof.
  assert (Hmask : 0 <= 16388 < 2 ^ 31) by lia.
  split; [exact Hmask |].
  apply (@ioprio_mask_round_trip 64 16388); [lia | exact Hmask].
Defined.

Lemma ioprio_field_bounds_witness :
  0 <= IOPRIO_PRIO_DATA 32 (-1) <= IOPRIO_PRIO_MASK 32 /\
  IOPRIO_PRIO_MASK 32 = 2 ^ IOPRIO_CLASS_SHIFT - 1 /\
  (0 <= -1 < 2 ^ IOPRIO_BITS ->
   0 <= IOPRIO_PRIO_CLASS (-1) < 2 ^ (IOPRIO_BITS - IOPRIO_CLASS_SHIFT)).
Proof.
  apply (@ioprio_field_bounds 32 (-1)); lia.
Defined.

Lemma ioprio_value_order_witness :
  IOPRIO_PRIO_VALUE IOPRIO_CLASS_RT 7 < IOPRIO_PRIO_VALUE IOPRIO_CLASS_BE 0 <->
  IOPRIO_CLASS_RT < IOPRIO_CLASS_BE \/ (IOPRIO_CLASS_RT = IOPRIO_CLASS_BE /\ 7 < 0).
Proof.
  apply (@ioprio_value_order IOPRIO_CLASS_RT 7 IOPRIO_CLASS_BE 0).
  - unfold class_in_range, IOPRIO_CLASS_RT, class_value. lia.
  - unfold data_in_range, IOPRIO_CLASS_SHIFT. lia.
  - unfold class_in_range, IOPRIO_CLASS_BE, class_value. lia.
  - unfold data_in_range, IOPRIO_CLASS_SHIFT. lia.
Defined.

Lemma ioprio_data_not_masked_witness :
  IOPRIO_PRIO_CLASS (IOPRIO_PRIO_VALUE IOPRIO_CLASS_NONE 8192) =
    Z.lor IOPRIO_CLASS_NONE (Z.shiftr 8192 IOPRIO_CLASS_SHIFT) /\
  IOPRIO_PRIO_DATA 32 (IOPRIO_PRIO_VALUE IOPRIO_CLASS_NONE 8192) =
    8192 mod 2 ^ IOPRIO_CLASS_SHIFT.
Proof.
  apply (@ioprio_data_not_masked 32 IOPRIO_CLASS_NONE 8192).
  - lia.
  - unfold class_in_range, IOPRIO_CLASS_NONE, class_value. lia.
  - lia.
Defined.

End IoprioMore.

(* ===================================================================== *)
(** * Facts about the post-processing block macros *)
(* ===================================================================== *)

Module MsmMdpFacts.
Import MsmMdp.

Lemma to_uint32_land_ones (z : Z) : to_uint32 z = Z.land z (Z.ones 32).
Proof. unfold to_uint32. symmetry. apply Z.land_ones. lia. Qed.

Lemma uint32_high_bit (z i : Z) : is_uint32 z -> 32 <= i -> Z.testbit z i = false.
Proof.
  unfold is_uint32. intros Hz Hi.
  destruct (Z.eq_dec z 0) as [-> | Hnz]; [apply Z.bits_0 |].
  apply Z.bits_above_log2; [lia |].
  apply Z.lt_le_trans with 32; [| assumption]. apply Z.log2_lt_pow2; lia.
Qed.

Lemma to_uint32_id (z : Z) : is_uint32 z -> to_uint32 z = z.
Proof. unfold is_uint32, to_uint32. intros Hz. now apply Z.mod_small. Qed.

(** The bit of an argument. *)
Lemma arg_bit (arg : Z) :
  is_pp_arg arg ->
  to_uint32 (Ioprio.to_int (Z.shiftl 0x1 (MDSS_PP_ARG_SHIFT + arg))) =
  2 ^ (MDSS_PP_ARG_SHIFT + arg).
Proof.
  unfold is_pp_arg, MDSS_PP_ARG_NUM, MDSS_PP_ARG_SHIFT. intros Harg.
  rewrite Z.shiftl_1_l.
  assert (Hle : 2 ^ (10 + arg) <= 2 ^ 13) by (apply Z.pow_le_mono_r; lia).
  assert (Hpos : 0 < 2 ^ (10 + arg)) by (apply Z.pow_pos_nonneg; lia).
  rewrite IoprioFacts.to_int_small by lia.
  apply to_uint32_id. unfold is_uint32. lia.
Qed.

(** Equality of two numbers, bit by bit. *)
Ltac bitwise i Hi :=
  apply Z.bits_inj'; intros i Hi;
  rewrite ?to_uint32_land_ones;
  repeat first
    [ rewrite Z.land_spec | rewrite Z.lor_spec
    | rewrite Z.testbit_ones by lia
    | rewrite Z.pow2_bits_eqb by lia
    | rewrite Z.shiftl_spec by lia
    | rewrite Z.bits_0 ].

Lemma ADD_ARG_lor (var arg : Z) :
  is_uint32 var -> is_pp_arg arg ->
  MDSS_PP_ADD_ARG var arg = Z.lor var (2 ^ (MDSS_PP_ARG_SHIFT + arg)).
Proof.
  intros Hvar Harg. unfold MDSS_PP_ADD_ARG. rewrite arg_bit by assumption.
  unfold is_pp_arg, MDSS_PP_ARG_NUM, MDSS_PP_ARG_SHIFT in *.
  bitwise i Hi.
  destruct (Z.ltb_spec i 32) as [Hlt | Hge].
  - replace (0 <=? i) with true by (symmetry; apply Z.leb_le; lia).
    now rewrite andb_true_r.
  - rewrite (uint32_high_bit Hvar Hge).
    replace (10 + arg =? i) with false by (symmetry; apply Z.eqb_neq; lia).
    now rewrite andb_false_r.
Qed.

Lemma PP_ARG_land (x var : Z) :
  is_uint32 var -> is_pp_arg x ->
  PP_ARG x var = Z.land var (2 ^ (MDSS_PP_ARG_SHIFT + x)).
Proof.
  intros Hvar Hx. unfold PP_ARG. rewrite arg_bit by assumption.
  unfold is_pp_arg, MDSS_PP_ARG_NUM, MDSS_PP_ARG_SHIFT in *.
  bitwise i Hi.
  destruct (Z.eqb_spec (10 + x) i) as [<- | Hne].
  - replace (0 <=? 10 + x) with true by (symmetry; apply Z.leb_le; lia).
    replace (10 + x <? 32) with true by (symmetry; apply Z.ltb_lt; lia).
    now rewrite !andb_true_r.
  - now rewrite !andb_false_r.
Qed.

Lemma land_small_mask (var mask : Z) :
  is_uint32 mask -> to_uint32 (Z.land var (to_uint32 mask)) = Z.land var mask.
Proof.
  intros Hmask. rewrite (to_uint32_id Hmask).
  bitwise i Hi.
  destruct (Z.ltb_spec i 32) as [Hlt | Hge].
  - replace (0 <=? i) with true by (symmetry; apply Z.leb_le; lia).
    now rewrite andb_true_r.
  - rewrite (uint32_high_bit Hmask Hge). now rewrite !andb_false_r.
Qed.

Lemma PP_LOCAT_land (var : Z) : PP_LOCAT var = Z.land var MDSS_PP_LOCATION_MASK.
Proof. apply land_small_mask. unfold is_uint32, MDSS_PP_LOCATION_MASK. lia. Qed.

Lemma PP_BLOCK_land (var : Z) : PP_BLOCK var = Z.land var MDSS_PP_LOGICAL_MASK.
Proof. apply land_small_mask. unfold is_uint32, MDSS_PP_LOGICAL_MASK. lia. Qed.

Lemma ADD_ARG_uint32 (var arg : Z) :
  is_uint32 var -> is_pp_arg arg -> is_uint32 (MDSS_PP_ADD_ARG var arg).
Proof.
  intros _ _. unfold MDSS_PP_ADD_ARG, to_uint32, is_uint32.
  apply Z.mod_pos_bound. lia.
Qed.

Lemma arg_bits_distinct (x y : Z) :
  is_pp_arg x -> is_pp_arg y -> x <> y ->
  Z.land (2 ^ (MDSS_PP_ARG_SHIFT + x)) (2 ^ (MDSS_PP_ARG_SHIFT + y)) = 0.
Proof.
  unfold is_pp_arg, MDSS_PP_ARG_NUM, MDSS_PP_ARG_SHIFT. intros Hx Hy Hne.
  apply Z.bits_inj'. intros i Hi.
  rewrite Z.land_spec, !Z.pow2_bits_eqb, Z.bits_0 by lia.
  destruct (Z.eqb_spec (10 + x) i); destruct (Z.eqb_spec (10 + y) i); trivial. lia.
Qed.

Lemma arg_bit_positive (x : Z) : is_pp_arg x -> 0 < 2 ^ (MDSS_PP_ARG_SHIFT + x).
Proof.
  unfold is_pp_arg, MDSS_PP_ARG_NUM, MDSS_PP_ARG_SHIFT. intros Hx.
  apply Z.pow_pos_nonneg; lia.
Qed.

Lemma lor_land_absorb (a b : Z) : Z.lor (Z.land a b) b = b.
Proof.
  apply Z.bits_inj'. intros i _. rewrite Z.lor_spec, Z.land_spec.
  destruct (Z.testbit a i), (Z.testbit b i); reflexivity.
Qed.

Lemma land_field (var mask bit : Z) :
  Z.land bit mask = 0 -> Z.land (Z.lor var bit) mask = Z.land var mask.
Proof.
  intros Hzero. rewrite Z.land_lor_distr_l, Hzero. apply Z.lor_0_r.
Qed.

Lemma arg_bit_outside (x mask : Z) :
  is_pp_arg x -> 0 <= mask < 2 ^ MDSS_PP_ARG_SHIFT ->
  Z.land (2 ^ (MDSS_PP_ARG_SHIFT + x)) mask = 0.
Proof.
  unfold is_pp_arg, MDSS_PP_ARG_NUM, MDSS_PP_ARG_SHIFT. intros Hx Hmask.
  apply Z.bits_inj'. intros i Hi.
  rewrite Z.land_spec, Z.pow2_bits_eqb, Z.bits_0 by lia.
  destruct (Z.eqb_spec (10 + x) i) as [<- | Hne]; [| reflexivity].
  destruct (Z.eq_dec mask 0) as [-> | Hnz]; [now rewrite Z.bits_0 |].
  rewrite Z.bits_above_log2; [reflexivity | lia |].
  apply Z.lt_le_trans with 10; [| lia]. apply Z.log2_lt_pow2; lia.
Qed.

Lemma arg_bit_inside (x : Z) :
  is_pp_arg x ->
  Z.land (2 ^ (MDSS_PP_ARG_SHIFT + x)) MDSS_PP_ARG_MASK = 2 ^ (MDSS_PP_ARG_SHIFT + x).
Proof.
  unfold is_pp_arg, MDSS_PP_ARG_NUM, MDSS_PP_ARG_SHIFT, MDSS_PP_ARG_MASK. intros Hx.
  assert (Hcases : x = 0 \/ x = 1 \/ x = 2 \/ x = 3) by lia.
  destruct Hcases as [-> | [-> | [-> | ->]]]; reflexivity.
Qed.

(** A field taken where it lies is the field of the shifted number, put
    back in its place. *)
Lemma land_shifted_mask (var mask k : Z) :
  0 <= k ->
  Z.land var (Z.shiftl mask k) = Z.shiftl (Z.land (Z.shiftr var k) mask) k.
Proof.
  intros Hk. apply Z.bits_inj'. intros i Hi.
  rewrite Z.land_spec, !Z.shiftl_spec, Z.land_spec by assumption.
  destruct (Z.ltb_spec i k) as [Hlt | Hge].
  - rewrite (Z.testbit_neg_r mask) by lia. now rewrite !andb_false_r.
  - rewrite Z.shiftr_spec by lia. now replace (i - k + k) with i by lia.
Qed.

(** X12.  An argument added with [MDSS_PP_ADD_ARG] is found by [PP_ARG]
    (the result is the bit of the argument, which is not 0), and the
    test of any other argument is as before. *)
Theorem pp_arg_set_then_tested (var x y : Z) :
  is_uint32 var -> is_pp_arg x -> is_pp_arg y ->
  PP_ARG x (MDSS_PP_ADD_ARG var x) = 2 ^ (MDSS_PP_ARG_SHIFT + x) /\
  PP_ARG x (MDSS_PP_ADD_ARG var x) <> 0 /\
  (y <> x -> PP_ARG y (MDSS_PP_ADD_ARG var x) = PP_ARG y var).
Proof.
  intros Hvar Hx Hy.
  pose proof (ADD_ARG_uint32 Hvar Hx) as Hadd.
  pose proof (arg_bit_positive Hx) as Hpos.
  assert (Hset : PP_ARG x (MDSS_PP_ADD_ARG var x) = 2 ^ (MDSS_PP_ARG_SHIFT + x)).
  { rewrite PP_ARG_land by assumption. rewrite ADD_ARG_lor by assumption.
    rewrite Z.land_lor_distr_l, Z.land_diag. apply lor_land_absorb. }
  split; [exact Hset |]. split; [lia |].
  intros Hne. rewrite !PP_ARG_land by assumption. rewrite ADD_ARG_lor by assumption.
  apply land_field. now apply arg_bits_distinct.
Qed.

(** X13.  [MDSS_PP_ADD_ARG] leaves the location and the logical block
    number as they were, and what it sets lies inside
    [MDSS_PP_ARG_MASK]. *)
Theorem add_arg_keeps_location_and_block (var x : Z) :
  is_uint32 var -> is_pp_arg x ->
  PP_LOCAT (MDSS_PP_ADD_ARG var x) = PP_LOCAT var /\
  PP_BLOCK (MDSS_PP_ADD_ARG var x) = PP_BLOCK var /\
  Z.land (MDSS_PP_ADD_ARG var x) MDSS_PP_ARG_MASK =
    Z.lor (Z.land var MDSS_PP_ARG_MASK) (2 ^ (MDSS_PP_ARG_SHIFT + x)).
Proof.
  intros Hvar Hx. rewrite !PP_LOCAT_land, !PP_BLOCK_land, ADD_ARG_lor by assumption.
  repeat split.
  - apply land_field. apply arg_bit_outside; [assumption |].
    unfold MDSS_PP_LOCATION_MASK, MDSS_PP_ARG_SHIFT. lia.
  - apply land_field. apply arg_bit_outside; [assumption |].
    unfold MDSS_PP_LOGICAL_MASK, MDSS_PP_ARG_SHIFT. lia.
  - rewrite Z.land_lor_distr_l. now rewrite arg_bit_inside.
Qed.

(** X14.  Adding an argument twice is adding it once, and two arguments
    can be added in either order. *)
Theorem add_arg_twice (var x y : Z) :
  is_uint32 var -> is_pp_arg x -> is_pp_arg y ->
  MDSS_PP_ADD_ARG (MDSS_PP_ADD_ARG var x) x = MDSS_PP_ADD_ARG var x /\
  MDSS_PP_ADD_ARG (MDSS_PP_ADD_ARG var x) y = MDSS_PP_ADD_ARG (MDSS_PP_ADD_ARG var y) x.
Proof.
  intros Hvar Hx Hy.
  pose proof (ADD_ARG_uint32 Hvar Hx) as Hax. pose proof (ADD_ARG_uint32 Hvar Hy) as Hay.
  rewrite (ADD_ARG_lor Hax Hx), (ADD_ARG_lor Hax Hy), (ADD_ARG_lor Hay Hx).
  rewrite !ADD_ARG_lor by assumption. split.
  - now rewrite <- Z.lor_assoc, Z.lor_diag.
  - rewrite <- !Z.lor_assoc. f_equal. apply Z.lor_comm.
Qed.

(** X15.  A block made of one of the four locations and a logical block
    number up to [MDSS_PP_LOGICAL_MASK] gives both back through
    [PP_LOCAT] and [PP_BLOCK]. *)
Theorem location_and_block_round_trip (loc block : Z) :
  is_pp_location loc -> 0 <= block <= MDSS_PP_LOGICAL_MASK ->
  PP_LOCAT (Z.lor loc block) = loc /\ PP_BLOCK (Z.lor loc block) = block.
Proof.
  intros Hloc Hblock. rewrite PP_LOCAT_land, PP_BLOCK_land.
  unfold MDSS_PP_LOGICAL_MASK, MDSS_PP_LOCATION_MASK in *.
  assert (Hlow : Z.land block 0xFF = block).
  { change 0xFF with (Z.ones 8). rewrite Z.land_ones by lia. apply Z.mod_small. lia. }
  assert (Hhigh : Z.land block 0x300 = 0).
  { apply Z.bits_inj'. intros i Hi. rewrite Z.land_spec, Z.bits_0.
    change 0x300 with (Z.shiftl (Z.ones 2) 8).
    rewrite Z.shiftl_spec, Z.testbit_ones by lia.
    destruct (Z.ltb_spec i 8) as [Hlt | Hge].
    - replace (0 <=? i - 8) with false by (symmetry; apply Z.leb_gt; lia).
      now rewrite andb_false_r.
    - destruct (Z.eq_dec block 0) as [-> | Hnz]; [now rewrite Z.bits_0 |].
      rewrite Z.bits_above_log2; [reflexivity | lia |].
      apply Z.lt_le_trans with 8; [| assumption]. apply Z.log2_lt_pow2; lia. }
  rewrite !Z.land_lor_distr_l, Hlow, Hhigh, Z.lor_0_r.
  unfold is_pp_location, MDSS_PP_DSPP_CFG, MDSS_PP_SSPP_CFG, MDSS_PP_LM_CFG,
    MDSS_PP_WB_CFG in Hloc.
  destruct Hloc as [-> | [-> | [-> | ->]]]; split; reflexivity.
Qed.

(** X16.  [MDSS_PP_ARG_MASK] selects the [MDSS_PP_ARG_NUM] bits that
    [PP_ARG] tests, and nothing else. *)
Theorem arg_mask_is_the_arguments (var : Z) :
  is_uint32 var ->
  Z.land var MDSS_PP_ARG_MASK =
  Z.lor (PP_ARG 0 var) (Z.lor (PP_ARG 1 var) (Z.lor (PP_ARG 2 var) (PP_ARG 3 var))).
Proof.
  intros Hvar.
  rewrite !PP_ARG_land by (trivial; unfold is_pp_arg, MDSS_PP_ARG_NUM; lia).
  rewrite <- !Z.land_lor_distr_r. reflexivity.
Qed.

(** X17.  Whatever the block, [PP_LOCAT] gives one of the four
    locations and [PP_BLOCK] a number up to [MDSS_PP_LOGICAL_MASK];
    together they are the ten low bits of the block. *)
Theorem pp_fields_decoded (var : Z) :
  is_pp_location (PP_LOCAT var) /\
  0 <= PP_BLOCK var <= MDSS_PP_LOGICAL_MASK /\
  Z.lor (PP_LOCAT var) (PP_BLOCK var) =
    Z.land var (Z.lor MDSS_PP_LOCATION_MASK MDSS_PP_LOGICAL_MASK).
Proof.
  rewrite PP_LOCAT_land, PP_BLOCK_land. split; [| split].
  - unfold MDSS_PP_LOCATION_MASK. change 0x0300 with (Z.shiftl (Z.ones 2) 8).
    rewrite land_shifted_mask, Z.land_ones, Z.shiftl_mul_pow2 by lia.
    pose proof (Z.mod_pos_bound (Z.shiftr var 8) (2 ^ 2)) as Hq.
    unfold is_pp_location, MDSS_PP_DSPP_CFG, MDSS_PP_SSPP_CFG, MDSS_PP_LM_CFG,
      MDSS_PP_WB_CFG.
    lia.
  - unfold MDSS_PP_LOGICAL_MASK. change 0x00FF with (Z.ones 8).
    rewrite Z.land_ones by lia.
    pose proof (Z.mod_pos_bound var (2 ^ 8)). change (Z.ones 8) with (2 ^ 8 - 1). lia.
  - now rewrite Z.land_lor_distr_r.
Qed.

Lemma pp_arg_set_then_tested_witness :
  PP_ARG 2 (MDSS_PP_ADD_ARG 0x105 2) = 2 ^ (MDSS_PP_ARG_SHIFT + 2) /\
  PP_ARG 2 (MDSS_PP_ADD_ARG 0x105 2) <> 0 /\
  (3 <> 2 -> PP_ARG 3 (MDSS_PP_ADD_ARG 0x105 2) = PP_ARG 3 0x105).
Proof.
  apply (@pp_arg_set_then_tested 0x105 2 3).
  - unfold is_uint32. lia.
  - unfold is_pp_arg, MDSS_PP_ARG_NUM. lia.
  - unfold is_pp_arg, MDSS_PP_ARG_NUM. lia.
Defined.

Lemma add_arg_keeps_location_and_block_witness :
  PP_LOCAT (MDSS_PP_ADD_ARG 0x105 0) = PP_LOCAT 0x105 /\
  PP_BLOCK (MDSS_PP_ADD_ARG 0x105 0) = PP_BLOCK 0x105 /\
  Z.land (MDSS_PP_ADD_ARG 0x105 0) MDSS_PP_ARG_MASK =
    Z.lor (Z.land 0x105 MDSS_PP_ARG_MASK) (2 ^ (MDSS_PP_ARG_SHIFT + 0)).
Proof.
  apply (@add_arg_keeps_location_and_block 0x105 0).
  - unfold is_uint32. lia.
  - unfold is_pp_arg, MDSS_PP_ARG_NUM. lia.
Defined.

Lemma add_arg_twice_witness :
  MDSS_PP_ADD_ARG (MDSS_PP_ADD_ARG 0x105 1) 1 = MDSS_PP_ADD_ARG 0x105 1 /\
  MDSS_PP_ADD_ARG (MDSS_PP_ADD_ARG 0x105 1) 3 =
    MDSS_PP_ADD_ARG (MDSS_PP_ADD_ARG 0x105 3) 1.
Proof.
  apply (@add_arg_twice 0x105 1 3).
  - unfold is_uint32. lia.
  - unfold is_pp_arg, MDSS_PP_ARG_NUM. lia.
  - unfold is_pp_arg, MDSS_PP_ARG_NUM. lia.
Defined.

Lemma location_and_block_round_trip_witness :
  PP_LOCAT (Z.lor MDSS_PP_LM_CFG 5) = MDSS_PP_LM_CFG /\
  PP_BLOCK (Z.lor MDSS_PP_LM_CFG 5) = 5.
Proof.
  apply (@location_and_block_round_trip MDSS_PP_LM_CFG 5).
  - right. right. left. reflexivity.
  - unfold MDSS_PP_LOGICAL_MASK. lia.
Defined.

Lemma arg_mask_is_the_arguments_witness :
  Z.land 0x2D05 MDSS_PP_ARG_MASK =
  Z.lor (PP_ARG 0 0x2D05)
        (Z.lor (PP_ARG 1 0x2D05) (Z.lor (PP_ARG 2 0x2D05) (PP_ARG 3 0x2D05))).
Proof.
  apply (@arg_mask_is_the_arguments 0x2D05). unfold is_uint32. lia.
Defined.

End MsmMdpFacts.

(* ===================================================================== *)
(** * More about [pthread_setname_np] *)
(* ===================================================================== *)

Module SetnameMore.
Import Libc Pthread Run Behaviour RunFacts LibcFacts StringFacts SetnameFacts.
Local Open Scope list_scope.

(** A number that is at least [10 ^ (k - 1)] has at least [k] digits. *)
Lemma length_digits_of_ge (fuel : nat) :
  forall (k : nat) (n : Z),
    (1 <= k)%nat -> 10 ^ (Z.of_nat k - 1) <= n < 2 ^ Z.of_nat fuel ->
    (k <= List.length (digits_of fuel n))%nat.
Proof.
  induction fuel as [| fuel IH]; intros k n Hk Hn.
  - exfalso. assert (0 < 10 ^ (Z.of_nat k - 1)) by (apply Z.pow_pos_nonneg; lia).
    cbn in Hn. lia.
  - cbn [digits_of List.length].
    destruct k as [| [| k]]; [lia | lia |].
    assert (Hpow : 10 ^ (Z.of_nat (S (S k)) - 1) = 10 * 10 ^ (Z.of_nat (S k) - 1)).
    { replace (Z.of_nat (S (S k)) - 1) with (Z.succ (Z.of_nat (S k) - 1)) by lia.
      apply Z.pow_succ_r. lia. }
    assert (Hpos : 0 < 10 ^ (Z.of_nat (S k) - 1)) by (apply Z.pow_pos_nonneg; lia).
    assert (Hq : 10 ^ (Z.of_nat (S k) - 1) <= n / 10).
    { apply Z.div_le_lower_bound; lia. }
    assert (Hq' : n / 10 < 2 ^ Z.of_nat fuel).
    { apply Z.div_lt_upper_bound; [lia |].
      replace (Z.of_nat (S fuel)) with (Z.succ (Z.of_nat fuel)) in Hn by lia.
      rewrite Z.pow_succ_r in Hn by lia. lia. }
    destruct (Z.eqb_spec (n / 10) 0) as [Hz | _]; [lia |].
    apply le_n_S. apply IH; lia.
Qed.

Lemma length_utoa_ge (k : nat) (n : Z) :
  (1 <= k)%nat -> 10 ^ (Z.of_nat k - 1) <= n ->
  (k <= String.length (utoa n))%nat.
Proof.
  intros Hk Hn. unfold utoa. rewrite length_string_of_digits.
  assert (0 < 10 ^ (Z.of_nat k - 1)) by (apply Z.pow_pos_nonneg; lia).
  apply length_digits_of_ge; [assumption |]. split; [assumption |].
  apply enough_fuel. lia.
Qed.

Lemma late_failure_runs :
  runs (Example.setname Example.worker_thread (Some "worker") 7)
       Example.late_failure (7, 0).
Proof.
  apply exec_sound with (fuel := 16%nat) (answers := Example.late_failure_answers).
  vm_compute. reflexivity.
Qed.

Section More.

Variable self : pthread_t.
Variable descriptor : pthread_t -> pthread_internal_t.

(** X1.  Renaming another thread: when [open] fails it is the only call
    made (nothing is written, nothing closed); when it gives a
    descriptor, the writes follow and then, as the last call, one
    [close] of that descriptor, whatever the writes were answered. *)
Theorem descriptor_is_closed thread name errno tr out :
  thread <> 0 -> strlen name < MAX_TASK_COMM_LEN -> thread <> self ->
  runs (pthread_setname_np self descriptor thread (Some name) errno) tr out ->
  (exists pathname code, tr = [ev_open pathname O_RDWR (Failure code)]) \/
  (exists pathname fd writes closed,
      tr = ev_open pathname O_RDWR (Success fd) ::
           writes ++ [ev_close (Z.of_N fd) closed] /\
      writes <> [] /\
      Forall (fun ev => is_write ev = true) writes).
Proof.
  intros Hthread Hlen Hself Hrun.
  apply runs_other_thread_iff in Hrun as
      [(code & -> & _) | (fd & j & written & closed & _ & -> & _)]; trivial.
  - left. eauto.
  - right. unfold other_thread_trace.
    exists (task_comm_path (to_unsigned_int (kernel_id (descriptor thread)))), fd,
      (repeat (ev_write (Z.of_N fd) (c_str name) (Failure EINTR_code)) j ++
       [ev_write (Z.of_N fd) (c_str name) written]), closed.
    split; [now rewrite <- app_assoc |]. split.
    + intros Heq. apply app_eq_nil in Heq as [_ Heq]. discriminate.
    + apply Forall_app. split; [| now repeat constructor].
      apply Forall_forall. intros ev Hin. apply repeat_spec in Hin. now subst.
Qed.

(** X2.  Renaming another thread: once a write has taken all the bytes
    of the name the call returns 0, also when [close] fails afterwards;
    the answer to [close] is not looked at. *)
Theorem failed_close_is_not_reported thread name errno :
  thread <> 0 -> strlen name < MAX_TASK_COMM_LEN -> thread <> self ->
  (forall tr out fd bytes n,
      runs (pthread_setname_np self descriptor thread (Some name) errno) tr out ->
      In (ev_write fd bytes (Success n)) tr ->
      Z.of_N n = strlen name ->
      snd out = 0) /\
  (forall fd interruptions code,
      runs (pthread_setname_np self descriptor thread (Some name) errno)
           (other_thread_trace
              (task_comm_path (to_unsigned_int (kernel_id (descriptor thread))))
              fd (c_str name) interruptions
              (Success (Z.to_N (strlen name))) (Failure code))
           (errno, 0)).
Proof.
  intros Hthread Hlen Hself. split.
  - intros tr out fd bytes n Hrun Hin Hn.
    apply runs_other_thread_iff in Hrun as
        [(code & -> & _) | (fd' & j & written & closed & Hne & -> & ->)]; trivial.
    + in_single Hin.
    + in_trace Hin. injection Hin as _ _ <-. cbn.
      destruct (Z.eqb_spec (Z.of_N n) (strlen name)); [reflexivity | contradiction].
  - intros fd j code. apply runs_other_thread_iff; trivial. right.
    exists fd, j, (Success (Z.to_N (strlen name))), (Failure code).
    repeat split; [discriminate |]. cbn.
    pose proof (strlen_nonneg name). rewrite Z2N.id by assumption.
    now rewrite Z.eqb_refl.
Qed.

(** X3.  Renaming another thread: [errno] is read after [close].  When
    the write fails (not by an interruption) and [close] fails too, the
    code of [close] is returned; when [close] succeeds, the code of the
    write. *)
Theorem errno_is_read_after_close thread name errno :
  thread <> 0 -> strlen name < MAX_TASK_COMM_LEN -> thread <> self ->
  forall fd interruptions code code',
    code <> EINTR_code ->
    runs (pthread_setname_np self descriptor thread (Some name) errno)
         (other_thread_trace
            (task_comm_path (to_unsigned_int (kernel_id (descriptor thread))))
            fd (c_str name) interruptions (Failure code) (Failure code'))
         (errno, Z.pos code') /\
    runs (pthread_setname_np self descriptor thread (Some name) errno)
         (other_thread_trace
            (task_comm_path (to_unsigned_int (kernel_id (descriptor thread))))
            fd (c_str name) interruptions (Failure code) (Success tt))
         (errno, Z.pos code).
Proof.
  intros Hthread Hlen Hself fd j code code' Hcode.
  split; apply runs_other_thread_iff; trivial; right.
  - exists fd, j, (Failure code), (Failure code'). repeat split. congruence.
  - exists fd, j, (Failure code), (Success tt). repeat split. congruence.
Qed.

(** X4.  The value returned is never negative: 0 or an error number,
    never the [-1] of the calls underneath. *)
Theorem result_is_not_negative thread thread_name errno tr out :
  runs (pthread_setname_np self descriptor thread thread_name errno) tr out ->
  0 <= snd out.
Proof.
  intros Hrun. apply runs_setname_iff in Hrun. unfold behaviour in Hrun.
  destruct thread_name as [name |]; [| destruct Hrun as [_ ->]; cbn; discriminate].
  destruct (thread =? 0); [destruct Hrun as [_ ->]; cbn; discriminate |].
  destruct (strlen name >=? MAX_TASK_COMM_LEN);
    [destruct Hrun as [_ ->]; cbn; discriminate |].
  destruct (thread =? self).
  - destruct Hrun as (answer & _ & ->). cbn. destruct answer; lia.
  - destruct Hrun as [(code & _ & ->) | (fd & j & written & closed & _ & _ & ->)];
      cbn; [lia |].
    unfold write_verdict. destruct written as [n | code].
    + destruct (Z.of_N n =? strlen name); [lia | discriminate].
    + destruct closed; lia.
Qed.

(** X5.  The kernel is never shown a name of [MAX_TASK_COMM_LEN] bytes
    or more: in every run the name given to [prctl] and the bytes of
    every write are shorter. *)
Theorem kernel_sees_short_names thread thread_name errno tr out :
  runs (pthread_setname_np self descriptor thread thread_name errno) tr out ->
  Forall shows_short_name tr.
Proof.
  intros Hrun. apply runs_setname_iff in Hrun. unfold behaviour in Hrun.
  destruct thread_name as [name |]; [| destruct Hrun as [-> _]; constructor].
  destruct (thread =? 0); [destruct Hrun as [-> _]; constructor |].
  destruct (Z.geb_spec (strlen name) MAX_TASK_COMM_LEN) as [Hlong | Hlen];
    [destruct Hrun as [-> _]; constructor |].
  destruct (thread =? self).
  - destruct Hrun as (answer & -> & _). repeat constructor. exact Hlen.
  - destruct Hrun as [(code & -> & _) | (fd & j & written & closed & _ & -> & _)].
    + repeat constructor.
    + apply Forall_forall. intros ev Hin. in_trace Hin; subst ev; cbn; trivial;
        rewrite <- strlen_c_str; exact Hlen.
Qed.

End More.

(** X6.  The buffer [comm_name] holds the path of every kernel id with
    its terminator: [snprintf] cuts nothing.  It is no larger than
    needed: an id of ten digits fills it. *)
Theorem comm_name_is_large_enough (kernel_id : Z) :
  let id := to_unsigned_int kernel_id in
  let comm_name := snprintf sizeof_comm_name TASK_COMM_FMT id in
  comm_name = expand TASK_COMM_FMT id /\
  Z.of_nat (String.length comm_name) + 1 <= sizeof_comm_name /\
  (10 ^ 9 <= id -> Z.of_nat (String.length comm_name) + 1 = sizeof_comm_name).
Proof.
  intros id comm_name. subst comm_name.
  pose proof (to_unsigned_int_range kernel_id) as Hid. fold id in Hid.
  rewrite (snprintf_comm_name Hid).
  pose proof (length_utoa Hid) as Hle.
  assert (Hlen : String.length (task_comm_path id) = (21 + String.length (utoa id))%nat).
  { unfold task_comm_path. rewrite !length_append. cbn [String.length]. lia. }
  rewrite Hlen. change sizeof_comm_name with 32.
  split; [reflexivity |]. split; [lia |].
  intros Hbig. pose proof (@length_utoa_ge 10 id) as Hge.
  assert (10 <= String.length (utoa id))%nat by (apply Hge; [lia | exact Hbig]).
  lia.
Qed.

Lemma descriptor_is_closed_witness :
  runs (Example.setname Example.worker_thread (Some "worker") 7)
       Example.denied_write (7, 13) /\
  ((exists pathname code,
       Example.denied_write = [ev_open pathname O_RDWR (Failure code)]) \/
   (exists pathname fd writes closed,
       Example.denied_write =
         ev_open pathname O_RDWR (Success fd) ::
         writes ++ [ev_close (Z.of_N fd) closed] /\
       writes <> [] /\
       Forall (fun ev => is_write ev = true) writes)).
Proof.
  split; [exact denied_write_runs |].
  apply (@descriptor_is_closed Example.main_thread Example.descriptor
           Example.worker_thread "worker" 7 Example.denied_write (7, 13)).
  - discriminate.
  - reflexivity.
  - discriminate.
  - exact denied_write_runs.
Defined.

Lemma failed_close_is_not_reported_witness :
  runs (Example.setname Example.worker_thread (Some "worker") 7)
       Example.late_failure (7, 0) /\
  snd (7, 0) = 0.
Proof.
  assert (Hthread : Example.worker_thread <> 0) by discriminate.
  assert (Hlen : strlen "worker" < MAX_TASK_COMM_LEN) by reflexivity.
  assert (Hother : Example.worker_thread <> Example.main_thread) by discriminate.
  destruct (@failed_close_is_not_reported Example.main_thread Example.descriptor
              Example.worker_thread "worker" 7 Hthread Hlen Hother)
    as [Hevery Hsome].
  assert (Hrun : runs (Example.setname Example.worker_thread (Some "worker") 7)
                      Example.late_failure (7, 0))
    by exact (Hsome 3%N 0%nat Example.EBADF_code).
  split; [exact Hrun |].
  apply (Hevery Example.late_failure (7, 0) 3 "worker" 6%N Hrun);
    [| reflexivity].
  right. left. reflexivity.
Defined.

Lemma errno_is_read_after_close_witness :
  runs (Example.setname Example.worker_thread (Some "worker") 7)
       Example.failed_close (7, 9) /\
  runs (Example.setname Example.worker_thread (Some "worker") 7)
       Example.denied_write (7, 13).
Proof.
  apply (@errno_is_read_after_close Example.main_thread Example.descriptor
           Example.worker_thread "worker" 7).
  - discriminate.
  - reflexivity.
  - discriminate.
  - discriminate.
Defined.

Lemma result_is_not_negative_witness :
  runs (Example.setname Example.main_thread (Some "main") 7)
       Example.refused_prctl (7, 1) /\
  0 <= snd (7, 1).
Proof.
  split; [exact refused_prctl_runs |].
  exact (@result_is_not_negative Example.main_thread Example.descriptor
           Example.main_thread (Some "main") 7 Example.refused_prctl (7, 1)
           refused_prctl_runs).
Defined.

Lemma kernel_sees_short_names_witness :
  runs (Example.setname Example.worker_thread (Some "worker") 7)
       Example.renamed_worker (7, 0) /\
  Forall shows_short_name Example.renamed_worker.
Proof.
  split; [exact renamed_worker_runs |].
  exact (@kernel_sees_short_names Example.main_thread Example.descriptor
           Example.worker_thread (Some "worker") 7 Example.renamed_worker (7, 0)
           renamed_worker_runs).
Defined.

End SetnameMore.
